(** * Project5: a dynamic multilevel queue simulator

    Shallow embedding of [Project5.cpp]: the [Process] record, the
    [DynamicQueue] container with its four member functions, and the shell
    and monitor agents, followed by the properties of the design document
    that concern them.

    Modelling conventions.
    - An [int] is an integer of [Z].  Two operations of the program can
      leave the 32-bit range on values an [int] can hold, the decrement of
      a remaining time and the doubling of the shell's interval; they wrap
      as the compiled program does ([int_dec], [int_mul]).  The counters and
      the process ids only count up from zero and would need 2^31 enqueues
      to leave the range.
    - A [shared_ptr<Process>] is modelled by the record it points to.  The
      member functions only ever write [remainingTime], and only through the
      handle stored in [waitQueue]; the field is never read through a handle
      stored in a ready list, so two handles to one object behave like two
      equal records.  [main] and [shellProcess] enqueue a new object at
      every call; were one object enqueued twice, the model and the program
      could only differ in the [remainingTime] of the copy that is left in a
      ready list, which no member function reads.
    - [list<...>] is a [list] (front first), [map<int, ...>] is a [gmap Z]
      that is traversed in ascending key order ([wait_entries]).
    - Every member function runs under [lock_guard<mutex>], so it is one
      atomic transition on the queue.
    - Dereferencing the null handle that [operator[]] default-constructs is
      undefined behaviour; [simulateSleep] returns [None] there. *)

From stdpp Require Import gmap strings list fin_maps sorting pretty.

Local Open Scope Z_scope.

(** ** int arithmetic *)

Definition INT_MIN : Z := -2147483648.
Definition INT_MAX : Z := 2147483647.

(** Two's-complement wrap-around into the range of an [int]. *)
Definition wrap32 (z : Z) : Z :=
  (z + 2147483648) `mod` 4294967296 - 2147483648.

(** [--x] on an [int]: one less, and from the smallest [int] the largest,
    which is what the overflow gives in the compiled program.  On every
    [int] this is [wrap32 (x - 1)] ([int_dec_wrap] below). *)
Definition int_dec (z : Z) : Z :=
  if decide (z = INT_MIN) then INT_MAX else z - 1.

#[global] Arguments int_dec : simpl never.

(** [a * b] on [int]s. *)
Definition int_mul (a b : Z) : Z := wrap32 (a * b).

#[global] Arguments int_mul : simpl never.

(** ** The Process record (class [Process], lines 19-36) *)

Record Process := mkProcess {
  id : Z;
  isForeground : bool;
  command : string;
  promoted : bool;
  remainingTime : Z
}.

#[global] Instance Process_eq_dec : EqDecision Process.
Proof. solve_decision. Defined.

(** The constructor: [promoted] starts false, [remainingTime] at 0. *)
Definition newProcess (id : Z) (isForeground : bool) (command : string) : Process :=
  mkProcess id isForeground command false 0.

(** The assignment [p->remainingTime = t]. *)
Definition set_remainingTime (t : Z) (p : Process) : Process :=
  mkProcess (id p) (isForeground p) (command p) (promoted p) t.

(** ** The DynamicQueue (class [DynamicQueue], lines 38-118)

    The five data members; [mtx] and the unused [cv] carry no data. *)

Record DynamicQueue := mkDynamicQueue {
  fgProcesses : list Process;
  bgProcesses : list Process;
  waitQueue : gmap Z Process;
  processCount : Z;
  bgCount : Z
}.

(** A default-constructed queue. *)
Definition emptyQueue : DynamicQueue := mkDynamicQueue [] [] ∅ 0 0.

(** [enqueue], lines 49-59: [push_back] on the list of the class of the
    process, [bgCount++] for a background process, then [processCount++]. *)
Definition enqueue (process : Process) (q : DynamicQueue) : DynamicQueue :=
  let q :=
    if isForeground process then
      mkDynamicQueue (fgProcesses q ++ [process]) (bgProcesses q) (waitQueue q)
                     (processCount q) (bgCount q)
    else
      mkDynamicQueue (fgProcesses q) (bgProcesses q ++ [process]) (waitQueue q)
                     (processCount q) (bgCount q + 1) in
  mkDynamicQueue (fgProcesses q) (bgProcesses q) (waitQueue q)
                 (processCount q + 1) (bgCount q).

(** [find_if(l.begin(), l.end(), p->id == pid)]: the position and the
    element of the first match, [None] for [l.end()]. *)
Definition find_if (pid : Z) (l : list Process) : option (nat * Process) :=
  list_find (λ p, id p = pid) l.

(** [simulateSleep], lines 61-77.  The search goes through [fgProcesses]
    first and through [bgProcesses] only when that fails; a hit is stored
    under [waitQueue[pid]] and erased from its list ([bgCount--] for the
    background list).  Line 76 then runs in every case: [waitQueue[pid]] is
    the entry under [pid], and when there is none [operator[]] creates one
    holding a null handle, which the assignment dereferences. *)
Definition simulateSleep (pid seconds : Z) (q : DynamicQueue) : option DynamicQueue :=
  let q :=
    match find_if pid (fgProcesses q) with
    | Some (i, proc) =>
        mkDynamicQueue (delete i (fgProcesses q)) (bgProcesses q)
                       (<[pid := proc]> (waitQueue q)) (processCount q) (bgCount q)
    | None =>
        match find_if pid (bgProcesses q) with
        | Some (i, proc) =>
            mkDynamicQueue (fgProcesses q) (delete i (bgProcesses q))
                           (<[pid := proc]> (waitQueue q)) (processCount q) (bgCount q - 1)
        | None => q
        end
    end in
  match waitQueue q !! pid with
  | Some proc =>
      Some (mkDynamicQueue (fgProcesses q) (bgProcesses q)
              (<[pid := set_remainingTime seconds proc]> (waitQueue q))
              (processCount q) (bgCount q))
  | None => None
  end.

(** The order of [map<int, ...>]: ascending keys. *)
Definition key_le (a b : Z * Process) : Prop := a.1 ≤ b.1.

#[global] Instance key_le_dec : RelDecision key_le.
Proof. intros a b. unfold key_le. apply _. Defined.

(** The entries of the wait map as [begin()] to [end()] goes through them. *)
Definition wait_entries (m : gmap Z Process) : list (Z * Process) :=
  merge_sort key_le (map_to_list m).

(** The body of the loop of [wakeUpProcesses], lines 82-94, at the entry
    [e]: decrement, then either move the process to the list of its class
    and erase the entry, or leave the decremented entry and step on. *)
Definition wake_step (q : DynamicQueue) (e : Z * Process) : DynamicQueue :=
  let proc := set_remainingTime (int_dec (remainingTime e.2)) e.2 in
  if decide (remainingTime proc ≤ 0) then
    if isForeground proc then
      mkDynamicQueue (fgProcesses q ++ [proc]) (bgProcesses q)
                     (delete e.1 (waitQueue q)) (processCount q) (bgCount q)
    else
      mkDynamicQueue (fgProcesses q) (bgProcesses q ++ [proc])
                     (delete e.1 (waitQueue q)) (processCount q) (bgCount q + 1)
  else
    mkDynamicQueue (fgProcesses q) (bgProcesses q)
                   (<[e.1 := proc]> (waitQueue q)) (processCount q) (bgCount q).

(** [wakeUpProcesses], lines 79-96.  A visit writes only the entry it is
    at, so the loop meets the entries that the map had on entry, in key
    order ([wake_step_pending] below). *)
Definition wakeUpProcesses (q : DynamicQueue) : DynamicQueue :=
  foldl wake_step q (wait_entries (waitQueue q)).

(** ** Output streams

    [cout] is the text written so far; [os << x] appends the rendering of
    [x].  The program inserts string literals, [std::string]s and [int]s. *)

Definition ostream : Type := string.

Class Insertion (A : Type) := render : A → string.
#[global] Instance insertion_string : Insertion string := λ s, s.
#[global] Instance insertion_int : Insertion Z := pretty.

Definition put {A} `{Insertion A} (os : ostream) (x : A) : ostream := os +:+ render x.
Notation "os << x" := (put os x) (at level 50, left associativity).

(** The line feed that the source writes as a backslash escape. *)
Definition nl : string :=
  String (Ascii.Ascii false true false true false false false false) "".

(** [Process::toString], lines 30-35. *)
Definition toString (p : Process) : string :=
  let ss : ostream := "" in
  let ss := ss << id p << (if isForeground p then "F" else "B") in
  let ss := if promoted p then ss << "*" else ss in
  ss.

(** ** printQueue, in a state monad over the queue and [cout] *)

Record world := mkWorld { dq : DynamicQueue; cout : ostream }.

Definition io (A : Type) : Type := world → A * world.

#[global] Instance io_ret : MRet io := λ A a w, (a, w).
#[global] Instance io_bind : MBind io := λ A B f m w, let (a, w') := m w in f a w'.

Definition load {A} (field : DynamicQueue → A) : io A := λ w, (field (dq w), w).
Definition write {A} `{Insertion A} (x : A) : io unit :=
  λ w, (tt, mkWorld (dq w) (cout w << x)).

Fixpoint for_each {A} (l : list A) (body : A → io unit) : io unit :=
  match l with
  | [] => mret tt
  | x :: l => body x ;; for_each l body
  end.

(** [printQueue], lines 98-117: one [write] per insertion into [cout]. *)
Definition printQueue : io unit :=
  n ← load bgCount;
  write "Running: [";; write n;; write "B]";; write nl;;
  write "---------------------------";; write nl;;
  write "DQ: (bottom) ";;
  bg ← load bgProcesses;
  for_each bg (λ proc, write "[";; write (toString proc);; write "] ");;
  write nl;; write "P => ";;
  fg ← load fgProcesses;
  for_each fg (λ proc, write "[";; write (toString proc);; write "] ");;
  write "(top)";; write nl;;
  write "---------------------------";; write nl;;
  write "WQ: ";;
  wq ← load (wait_entries ∘ waitQueue);
  for_each wq (λ wp, write "[";; write (toString wp.2);; write ": ";;
                     write (remainingTime wp.2);; write "s] ");;
  write nl;; write "...";; write nl.

(** A computation that leaves the queue as it found it. *)
Definition read_only {A} (m : io A) : Prop := ∀ w, dq (m w).2 = dq w.

(** ** The agents

    Neither agent looks at the queue: every member function returns [void].
    An agent is therefore the sequence of calls it issues, and the calls are
    interpreted on the shared [world] by [run_call]; the interleaving of two
    agents is an interleaving of their call sequences. *)

Inductive call :=
  | Enqueue (process : Process)
  | SimulateSleep (pid seconds : Z)
  | WakeUpProcesses
  | PrintQueue
  | SleepFor (seconds : Z).

#[global] Instance call_eq_dec : EqDecision call.
Proof. solve_decision. Defined.

Definition run_call (c : call) (w : world) : option world :=
  match c with
  | Enqueue process => Some (mkWorld (enqueue process (dq w)) (cout w))
  | SimulateSleep pid seconds =>
      q ← simulateSleep pid seconds (dq w); Some (mkWorld q (cout w))
  | WakeUpProcesses => Some (mkWorld (wakeUpProcesses (dq w)) (cout w))
  | PrintQueue => Some (printQueue w).2
  | SleepFor _ => Some w
  end.

Fixpoint run (cs : list call) (w : world) : option world :=
  match cs with
  | [] => Some w
  | c :: cs => w ← run_call c w; run cs w
  end.

Definition commands : list string :=
  ["alarm clock"; "todo list"; "email check"; "music player"; "video player";
   "web browser"].

(** The body of the range-for loop of [shellProcess]; [processId] is the
    value of the counter when the iteration starts.  [%] is [Z.rem]. *)
Fixpoint shell_loop (interval processId : Z) (lines : list string) : list call :=
  match lines with
  | [] => []
  | line :: lines =>
      let isForeground := bool_decide (Z.rem processId 2 = 0) in
      let proc := newProcess processId isForeground line in
      let processId := processId + 1 in
      [Enqueue proc]
      ++ (if decide (Z.rem processId 3 = 0)
          then [SimulateSleep (id proc) (int_mul interval 2)] else [])
      ++ [SleepFor interval; PrintQueue]
      ++ shell_loop interval processId lines
  end.

(** [shellProcess], lines 120-133. *)
Definition shellProcess (interval : Z) : list call :=
  shell_loop interval 2 commands.

(** [monitorProcess], lines 135-141: the first [rounds] iterations of the
    endless loop. *)
Fixpoint monitorProcess (interval : Z) (rounds : nat) : list call :=
  match rounds with
  | O => []
  | S rounds =>
      [SleepFor interval; WakeUpProcesses; PrintQueue]
      ++ monitorProcess interval rounds
  end.

Definition shellProc : Process := newProcess 0 true "shell".
Definition monitorProc : Process := newProcess 1 false "monitor".

(** The queue that [main] hands to the two threads. *)
Definition main_queue : DynamicQueue :=
  enqueue monitorProc (enqueue shellProc emptyQueue).

(** ** Vocabulary of the properties *)

Definition ready (q : DynamicQueue) : list Process :=
  fgProcesses q ++ bgProcesses q.

Definition in_ready (pid : Z) (q : DynamicQueue) : Prop :=
  pid ∈ id <$> ready q.

Definition held (pid : Z) (q : DynamicQueue) : Prop :=
  in_ready pid q ∨ is_Some (waitQueue q !! pid).

#[global] Instance in_ready_dec pid q : Decision (in_ready pid q).
Proof. unfold in_ready. apply _. Defined.

#[global] Instance held_dec pid q : Decision (held pid q).
Proof. unfold held. apply _. Defined.

(** States reachable from the empty queue; [guard] is what the caller of
    [enqueue] respects, and [simulateSleep] is only called on a pid that is
    in a ready list. *)
Inductive reachable_with (guard : Process → DynamicQueue → Prop)
  : DynamicQueue → Prop :=
  | reach_empty : reachable_with guard emptyQueue
  | reach_enqueue q p :
      reachable_with guard q → guard p q → reachable_with guard (enqueue p q)
  | reach_sleep q pid seconds q' :
      reachable_with guard q → in_ready pid q →
      simulateSleep pid seconds q = Some q' → reachable_with guard q'
  | reach_wake q :
      reachable_with guard q → reachable_with guard (wakeUpProcesses q).

Definition reachable : DynamicQueue → Prop :=
  reachable_with (λ _ _, True).

(** The caller never enqueues an id that the queue already holds. *)
Definition reachable_fresh : DynamicQueue → Prop :=
  reachable_with (λ p q, ¬ held (id p) q).

Definition counts_ok (q : DynamicQueue) : Prop :=
  processCount q
  = Z.of_nat (length (fgProcesses q) + length (bgProcesses q) + size (waitQueue q))
  ∧ bgCount q = Z.of_nat (length (bgProcesses q)).



Definition fg_class (p : Process) : Prop := isForeground p = true.
Definition bg_class (p : Process) : Prop := isForeground p = false.

#[global] Instance fg_class_dec p : Decision (fg_class p).
Proof. unfold fg_class. apply _. Defined.

#[global] Instance bg_class_dec p : Decision (bg_class p).
Proof. unfold bg_class. apply _. Defined.

Definition class_ok (q : DynamicQueue) : Prop :=
  Forall fg_class (fgProcesses q) ∧ Forall bg_class (bgProcesses q).

Definition wait_positive (q : DynamicQueue) : Prop :=
  map_Forall (λ _ p, 0 < remainingTime p) (waitQueue q).

(** Ids are pairwise distinct over the ready lists and the wait map, and
    the wait map is keyed by id. *)
Definition ids_ok (q : DynamicQueue) : Prop :=
  NoDup (id <$> ready q)
  ∧ map_Forall (λ k p, id p = k) (waitQueue q)
  ∧ ∀ k, in_ready k q → waitQueue q !! k = None.

(** One tick seen from a single waiter. *)
Definition tick (p : Process) : Process :=
  set_remainingTime (int_dec (remainingTime p)) p.

Definition expired (p : Process) : Prop := int_dec (remainingTime p) ≤ 0.

#[global] Instance expired_dec p : Decision (expired p).
Proof. unfold expired. apply _. Defined.

Definition stay (p : Process) : option Process :=
  if decide (expired p) then None else Some (tick p).

(** The waiters that one tick readmits, in the order of the traversal. *)
Definition woken_of (l : list (Z * Process)) : list Process :=
  tick <$> filter expired l.*2.

Definition woken (q : DynamicQueue) : list Process :=
  woken_of (wait_entries (waitQueue q)).

Definition native (p : Process) (q : DynamicQueue) : list Process :=
  if isForeground p then fgProcesses q else bgProcesses q.


Definition ticks (n : nat) (q : DynamicQueue) : DynamicQueue :=
  Nat.iter n wakeUpProcesses q.

(** The layout of the design document, line by line. *)
Definition label (p : Process) : string :=
  pretty (id p) +:+ (if isForeground p then "F" else "B")
  +:+ (if promoted p then "*" else "").

Definition separator : string := "---------------------------".

Fixpoint glue (l : list string) : string :=
  match l with
  | [] => ""
  | s :: l => s +:+ glue l
  end.

Definition ready_item (p : Process) : string := "[" +:+ label p +:+ "] ".

Definition wait_item (e : Z * Process) : string :=
  "[" +:+ label e.2 +:+ ": " +:+ pretty (remainingTime e.2) +:+ "s] ".

Definition snapshot_lines (q : DynamicQueue) : list string :=
  [ "Running: [" +:+ pretty (bgCount q) +:+ "B]";
    separator;
    "DQ: (bottom) " +:+ glue (ready_item <$> bgProcesses q);
    "P => " +:+ glue (ready_item <$> fgProcesses q) +:+ "(top)";
    separator;
    "WQ: " +:+ glue (wait_item <$> wait_entries (waitQueue q));
    "..." ].

Definition snapshot (q : DynamicQueue) : string :=
  glue ((λ line, line +:+ nl) <$> snapshot_lines q).

(** What the shell creates and what it puts to sleep. *)
Definition created (cs : list call) : list Process :=
  omap (λ c, match c with Enqueue p => Some p | _ => None end) cs.

Definition slept (cs : list call) : list (Z * Z) :=
  omap (λ c, match c with SimulateSleep pid s => Some (pid, s) | _ => None end) cs.


(** The effect of a call on the queue alone. *)
Definition queue_call (c : call) (q : DynamicQueue) : option DynamicQueue :=
  match c with
  | Enqueue process => Some (enqueue process q)
  | SimulateSleep pid seconds => simulateSleep pid seconds q
  | WakeUpProcesses => Some (wakeUpProcesses q)
  | PrintQueue | SleepFor _ => Some q
  end.

Fixpoint queue_run (cs : list call) (q : DynamicQueue) : option DynamicQueue :=
  match cs with
  | [] => Some q
  | c :: cs => q ← queue_call c q; queue_run cs q
  end.

(** Calls whose sleep, if they are one, asks for a positive number of
    seconds. *)
Definition positive_sleep (c : call) : Prop :=
  match c with
  | SimulateSleep _ seconds => 0 < seconds
  | _ => True
  end.

(** Calls that do not put [pid] to sleep again. *)
Definition leaves_alone (pid : Z) (c : call) : Prop :=
  match c with
  | SimulateSleep pid' _ => pid' ≠ pid
  | _ => True
  end.

Fixpoint tick_count (cs : list call) : nat :=
  match cs with
  | [] => O
  | WakeUpProcesses :: cs => S (tick_count cs)
  | _ :: cs => tick_count cs
  end.

Definition same_class (p : Process) (l : list Process) : list Process :=
  if isForeground p then filter fg_class l else filter bg_class l.



(** ** Concrete queues used in the examples *)

Definition alarm : Process := newProcess 2 true "alarm clock".
Definition todo : Process := newProcess 3 false "todo list".
Definition email : Process := newProcess 4 true "email check".
Definition music : Process := newProcess 5 false "music player".
Definition video : Process := newProcess 6 true "video player".
Definition browser : Process := newProcess 7 false "web browser".

(** The bootstrap queue with [alarm] asleep for ten ticks. *)
Definition alarm_asleep : DynamicQueue :=
  mkDynamicQueue [shellProc] [monitorProc]
    {[ 2 := set_remainingTime 10 alarm ]} 3 1.

(** [simulateSleep 2 0] on the bootstrap queue extended with [alarm]. *)
Definition zero_slept : DynamicQueue :=
  mkDynamicQueue [shellProc] [monitorProc]
    {[ 2 := set_remainingTime 0 alarm ]} 3 1.

(** [alarm] and [email], both foreground, joined the bootstrap queue and
    [email] was put to sleep for one tick. *)
Definition email_asleep : DynamicQueue :=
  mkDynamicQueue [shellProc; alarm] [monitorProc]
    {[ 4 := set_remainingTime 1 email ]} 4 1.


(** ... then [alarm] was put to sleep for one tick as well. *)
Definition both_asleep : DynamicQueue :=
  mkDynamicQueue [shellProc] [monitorProc]
    {[ 2 := set_remainingTime 1 alarm; 4 := set_remainingTime 1 email ]} 4 1.

(** The queue the shell leaves behind when it runs alone for [interval]. *)
Definition after_shell (interval : Z) : DynamicQueue :=
  mkDynamicQueue [shellProc; email; video] [monitorProc; todo; browser]
    {[ 2 := set_remainingTime (2 * interval) alarm;
       5 := set_remainingTime (2 * interval) music ]} 8 3.

(** [enqueue alarm] twice, then [simulateSleep 2 1] twice. *)
Definition twice_slept : DynamicQueue :=
  mkDynamicQueue [] [] {[ 2 := set_remainingTime 1 alarm ]} 2 0.

(** The bootstrap queue after the first two iterations of the shell. *)
Definition two_shell_rounds : DynamicQueue :=
  mkDynamicQueue [shellProc] [monitorProc; todo]
    {[ 2 := set_remainingTime 10 alarm ]} 4 2.

(** ** parse and exec, lines 143-174 *)

Definition NUL : Ascii.ascii :=
  Ascii.Ascii false false false false false false false false.

Definition SPACE : Ascii.ascii :=
  Ascii.Ascii false false false false false true false false.

(** The characters of a C string: those in front of the first NUL. *)
Fixpoint c_str (s : string) : string :=
  match s with
  | "" => ""
  | String c s => if decide (c = NUL) then "" else String c (c_str s)
  end.

(** [ss >> token] first skips the white space at the front of the stream. *)
Fixpoint skipws (ss : string) : string :=
  match ss with
  | "" => ""
  | String c ss' => if Ascii.is_space c then skipws ss' else ss
  end.

(** ... and then takes characters up to the next white space or the end:
    the token and the rest of the stream. *)
Fixpoint get_word (ss : string) : string * string :=
  match ss with
  | "" => ("", "")
  | String c ss' =>
      if Ascii.is_space c then ("", ss)
      else let (token, rest) := get_word ss' in (String c token, rest)
  end.

(** [ss >> token] as a whole; [None] when no character could be taken, which
    ends the [while]. *)
Definition extract (ss : string) : option (string * string) :=
  match skipws ss with
  | "" => None
  | String c ss' => Some (get_word (String c ss'))
  end.

(** The [while] loop of [parse], lines 147-149. *)
Fixpoint parse_loop (fuel : nat) (ss : string) (tokens : list string) : list string :=
  match fuel with
  | O => tokens
  | S fuel =>
      match extract ss with
      | Some (token, ss) => parse_loop fuel ss (tokens ++ [token])
      | None => tokens
      end
  end.

(** The vector [tokens] when the loop is left.  Every round takes at least
    one character from the stream, so its length bounds the rounds
    ([parse_loop_enough] below). *)
Definition tokenize (command : string) : list string :=
  let ss := c_str command in
  parse_loop (S (String.length ss)) ss [].

(** [strcpy_s(dest, destsz, src)]: the copy, or [None] for the constraint
    violation of a destination that is too small. *)
Definition strcpy_s (destsz : nat) (src : string) : option string :=
  let s := c_str src in
  if decide (String.length s < destsz)%nat then Some s else None.

(** [parse], lines 143-159: the array of copies with its closing null
    pointer. *)
Definition parse (command : string) : option (list (option string)) :=
  let tokens := tokenize command in
  args ← mapM (λ token, strcpy_s (String.length token + 1) token) tokens;
  Some ((Some <$> args) ++ [None]).

(** The printing loop of [exec], lines 164-166; running off the end of an
    array that has no null pointer has no defined result. *)
Fixpoint exec_loop (args : list (option string)) (w : world) : option world :=
  match args with
  | [] => None
  | None :: _ => Some w
  | Some arg :: args => exec_loop args ((write (c_str arg) ;; write " ") w).2
  end.

(** [exec], lines 161-174.  The two loops that free the array walk it the
    same way and write nothing. *)
Definition exec (args : list (option string)) (w : world) : option world :=
  w ← exec_loop args (write "Executing command: " w).2;
  Some (write nl w).2.


(** The tokens that the loop takes from the stream [ss]. *)
Definition stream_tokens (ss : string) : list string :=
  parse_loop (S (String.length ss)) ss [].

(** Strings character by character. *)
Fixpoint all_chars (P : Ascii.ascii → bool) (s : string) : bool :=
  match s with
  | "" => true
  | String c s => P c && all_chars P s
  end.

Fixpoint keep_chars (P : Ascii.ascii → bool) (s : string) : string :=
  match s with
  | "" => ""
  | String c s => if P c then String c (keep_chars P s) else keep_chars P s
  end.

Definition not_space (c : Ascii.ascii) : bool := negb (Ascii.is_space c).
Definition not_nul (c : Ascii.ascii) : bool := bool_decide (c ≠ NUL).

(** A word: not empty, no white space, no NUL. *)
Definition is_word (t : string) : Prop :=
  t ≠ "" ∧ all_chars not_space t ∧ all_chars not_nul t.

#[global] Instance is_word_dec t : Decision (is_word t).
Proof. unfold is_word. apply _. Defined.

(** The arguments as [exec] prints them: each followed by one space. *)
Definition spaced (ts : list string) : string :=
  glue ((λ t, t +:+ " ") <$> ts).

(** ** Vocabulary of the further properties *)

(** A process without its remaining time, and the processes a queue holds. *)
Definition forget (p : Process) : Process := set_remainingTime 0 p.

Definition wait_values (m : gmap Z Process) : list Process :=
  (wait_entries m).*2.

Definition members (q : DynamicQueue) : list Process :=
  forget <$> (ready q ++ wait_values (waitQueue q)).

(** The ways two threads can take turns under the queue's mutex. *)
Inductive interleave {A} : list A → list A → list A → Prop :=
  | interleave_nil : interleave [] [] []
  | interleave_left x l1 l2 l :
      interleave l1 l2 l → interleave (x :: l1) l2 (x :: l)
  | interleave_right x l1 l2 l :
      interleave l1 l2 l → interleave l1 (x :: l2) (x :: l).

(** The calls the monitor issues. *)
Definition monitor_call (c : call) : Prop :=
  match c with
  | WakeUpProcesses | PrintQueue | SleepFor _ => True
  | _ => False
  end.

(** A trace that enqueues only ids outside [known] and puts to sleep only
    ids from [awake], where [known] grows with every enqueue and [awake]
    grows with every enqueue and shrinks with every sleep. *)
Fixpoint well_used (known awake : list Z) (cs : list call) : Prop :=
  match cs with
  | [] => True
  | Enqueue p :: cs =>
      (id p ∉ known) ∧ well_used (id p :: known) (id p :: awake) cs
  | SimulateSleep pid _ :: cs =>
      pid ∈ awake ∧ well_used known (filter (λ k, k ≠ pid) awake) cs
  | _ :: cs => well_used known awake cs
  end.

(** ** Concrete inputs of the further examples *)

(** Two processes with id 2, one foreground and one background. *)
Definition alarm_bg : Process := newProcess 2 false "alarm clock".

Definition two_twos : DynamicQueue :=
  mkDynamicQueue [shellProc; alarm] [monitorProc; alarm_bg] ∅ 4 2.

(** [alarm] enqueued twice and put to sleep once. *)
Definition once_slept : DynamicQueue :=
  mkDynamicQueue [alarm] [] {[ 2 := set_remainingTime 1 alarm ]} 2 0.

(** A schedule of the two threads: the monitor's first round runs between
    the shell's first enqueue and the sleep that follows it. *)
Definition monitor_cuts_in : list call :=
  [Enqueue alarm; SleepFor 10; WakeUpProcesses; PrintQueue]
  ++ drop 1 (shellProcess 5).

(** * Properties *)

(** ** int arithmetic *)

Section int.
Implicit Types (z : Z).

Lemma wrap32_range z : INT_MIN ≤ wrap32 z ≤ INT_MAX.
Proof.
  unfold wrap32, INT_MIN, INT_MAX.
  pose proof (Z.mod_pos_bound (z + 2147483648) 4294967296). lia.
Qed.

Lemma wrap32_id z : INT_MIN ≤ z ≤ INT_MAX → wrap32 z = z.
Proof.
  unfold wrap32, INT_MIN, INT_MAX. intros Hz.
  rewrite Z.mod_small; lia.
Qed.

Lemma int_dec_pred z : z ≠ INT_MIN → int_dec z = z - 1.
Proof. unfold int_dec. intros Hz. by case_decide. Qed.

Lemma int_dec_INT_MIN : int_dec INT_MIN = INT_MAX.
Proof. reflexivity. Qed.

(** The decrement is the mathematical one wrapped into the range. *)
Lemma int_dec_wrap z : INT_MIN ≤ z ≤ INT_MAX → int_dec z = wrap32 (z - 1).
Proof.
  intros Hz. unfold int_dec. case_decide as He.
  - by subst z.
  - rewrite wrap32_id; [done|]. unfold INT_MIN, INT_MAX in *. lia.
Qed.

Lemma int_dec_range z : INT_MIN ≤ z ≤ INT_MAX → INT_MIN ≤ int_dec z ≤ INT_MAX.
Proof. intros Hz. rewrite int_dec_wrap by done. apply wrap32_range. Qed.

Lemma int_dec_le_0 z : int_dec z ≤ 0 ↔ z ≠ INT_MIN ∧ z - 1 ≤ 0.
Proof.
  unfold int_dec. case_decide as He.
  - split; [unfold INT_MAX; lia|]. by intros [? _].
  - split; [done|]. by intros [_ ?].
Qed.

(** Doubling is exact on the intervals whose double is an [int]. *)
Lemma int_mul_2 z : INT_MIN ≤ 2 * z ≤ INT_MAX → int_mul z 2 = 2 * z.
Proof.
  intros Hz. unfold int_mul. rewrite wrap32_id; [lia|].
  unfold INT_MIN, INT_MAX in *. lia.
Qed.

(** Beyond that the program passes the wrapped product. *)
Lemma int_mul_2_wraps : int_mul 1073741824 2 = INT_MIN.
Proof. reflexivity. Qed.
End int.

Ltac int_lia := unfold INT_MIN, INT_MAX in *; lia.

(** ** The traversal order of the wait map *)

Section wait_entries.
Implicit Types (m : gmap Z Process) (k : Z) (p : Process).

#[local] Instance key_le_trans : Transitive key_le.
Proof. intros a b c. unfold key_le. lia. Qed.

#[local] Instance key_le_total : Total key_le.
Proof. intros a b. unfold key_le. lia. Qed.

Lemma wait_entries_perm m : wait_entries m ≡ₚ map_to_list m.
Proof. apply merge_sort_Permutation. Qed.

Lemma elem_of_wait_entries m k p : (k, p) ∈ wait_entries m ↔ m !! k = Some p.
Proof. by rewrite wait_entries_perm, elem_of_map_to_list. Qed.

Lemma elem_of_wait_keys m k : k ∈ (wait_entries m).*1 ↔ is_Some (m !! k).
Proof.
  rewrite list_elem_of_fmap. split.
  - intros ([k' p] & -> & Hin). apply elem_of_wait_entries in Hin. by eexists.
  - intros [p Hp]. exists (k, p). split; [done|]. by apply elem_of_wait_entries.
Qed.

Lemma NoDup_wait_keys m : NoDup (wait_entries m).*1.
Proof. rewrite wait_entries_perm. apply NoDup_fst_map_to_list. Qed.

Lemma wait_entries_sorted m : StronglySorted key_le (wait_entries m).
Proof. apply StronglySorted_merge_sort; apply _. Qed.

Lemma wait_entries_empty : wait_entries ∅ = [].
Proof.
  apply Permutation_nil_r. rewrite wait_entries_perm.
  by rewrite map_to_list_empty.
Qed.

(** The keys come out strictly ascending. *)
Lemma wait_entries_ascending m :
  StronglySorted (λ a b : Z * Process, a.1 < b.1) (wait_entries m).
Proof.
  pose proof (wait_entries_sorted m) as Hs.
  pose proof (NoDup_wait_keys m) as Hn.
  induction Hs as [|e l Hs IH Hall]; [constructor|].
  rewrite fmap_cons in Hn. apply NoDup_cons in Hn as [Hnotin Hn].
  constructor; [by apply IH|].
  rewrite Forall_forall in Hall |- *. intros e' He'.
  specialize (Hall e' He'). unfold key_le in Hall.
  assert (e.1 ≠ e'.1); [|lia].
  intros Heq. apply Hnotin. rewrite Heq. by apply list_elem_of_fmap_2.
Qed.

(** Where a waiter sits in the traversal, and what the traversal is
    without it. *)
Lemma wait_entries_split m k p :
  m !! k = Some p →
  ∃ l1 l2,
    wait_entries m = l1 ++ (k, p) :: l2
    ∧ Forall (λ e, e.1 < k) l1
    ∧ Forall (λ e, k < e.1) l2
    ∧ wait_entries (delete k m) = l1 ++ l2.
Proof.
  intros Hk.
  assert ((k, p) ∈ wait_entries m) as Hin by by apply elem_of_wait_entries.
  apply list_elem_of_split in Hin as (l1 & l2 & Heq).
  exists l1, l2. split; [done|].
  pose proof (wait_entries_ascending m) as Hs. rewrite Heq in Hs.
  apply StronglySorted_app in Hs as (H12 & Hs1 & Hs2).
  apply StronglySorted_cons in Hs2 as [Hl2 Hs2].
  split_and!.
  - apply Forall_forall. intros e He. apply (H12 e (k, p)); [done|left].
  - done.
  - symmetry. apply (StronglySorted_unique_strong key_le).
    + intros x1 x2 Hx1 Hx2 H1 H2. unfold key_le in *.
      destruct x1 as [k1 v1], x2 as [k2 v2]; simpl in *.
      assert (k1 = k2) as -> by lia. f_equal.
      apply elem_of_wait_entries in Hx2.
      assert ((k2, v1) ∈ wait_entries m) as Hx1'.
      { rewrite Heq. apply elem_of_app in Hx1 as [?|?].
        - apply elem_of_app; by left.
        - apply elem_of_app; right; by right. }
      apply elem_of_wait_entries in Hx1'.
      apply lookup_delete_Some in Hx2 as [_ Hx2]. congruence.
    + pose proof (wait_entries_sorted m) as Hs. rewrite Heq in Hs.
      apply StronglySorted_app in Hs as (H12' & Hs1' & Hs2').
      apply StronglySorted_cons in Hs2' as [Hl2' Hs2'].
      apply StronglySorted_app_2; [|done..].
      intros x1 x2 Hx1 Hx2. apply H12'; [done|by right].
    + apply wait_entries_sorted.
    + apply (inj (cons (k, p))).
      rewrite wait_entries_perm, (map_to_list_delete _ _ _ Hk).
      rewrite <-wait_entries_perm, Heq. by rewrite Permutation_middle.
Qed.
End wait_entries.

(** ** wakeUpProcesses: what one traversal does *)

Section wake.
Implicit Types (q : DynamicQueue) (l : list (Z * Process)) (k : Z) (p : Process).

Lemma woken_of_app l1 l2 : woken_of (l1 ++ l2) = woken_of l1 ++ woken_of l2.
Proof. unfold woken_of. by rewrite fmap_app, filter_app, fmap_app. Qed.

Lemma woken_of_cons k p l : woken_of ((k, p) :: l) = woken_of [(k, p)] ++ woken_of l.
Proof. apply (woken_of_app [(k, p)] l). Qed.

Lemma woken_of_expired k p : expired p → woken_of [(k, p)] = [tick p].
Proof. intros H. unfold woken_of. simpl. by rewrite filter_cons_True. Qed.

Lemma woken_of_staying k p : ¬ expired p → woken_of [(k, p)] = [].
Proof. intros H. unfold woken_of. simpl. by rewrite filter_cons_False. Qed.

Lemma wake_step_expired_fg q k p :
  expired p → isForeground p = true →
  wake_step q (k, p)
  = mkDynamicQueue (fgProcesses q ++ [tick p]) (bgProcesses q)
      (delete k (waitQueue q)) (processCount q) (bgCount q).
Proof.
  intros He Hf. unfold wake_step. simpl.
  rewrite decide_True by done. by rewrite Hf.
Qed.

Lemma wake_step_expired_bg q k p :
  expired p → isForeground p = false →
  wake_step q (k, p)
  = mkDynamicQueue (fgProcesses q) (bgProcesses q ++ [tick p])
      (delete k (waitQueue q)) (processCount q) (bgCount q + 1).
Proof.
  intros He Hf. unfold wake_step. simpl.
  rewrite decide_True by done. by rewrite Hf.
Qed.

Lemma wake_step_staying q k p :
  ¬ expired p →
  wake_step q (k, p)
  = mkDynamicQueue (fgProcesses q) (bgProcesses q)
      (<[k := tick p]> (waitQueue q)) (processCount q) (bgCount q).
Proof.
  intros He. unfold wake_step. simpl. by rewrite decide_False by done.
Qed.

(** The three cases of the loop body. *)
Lemma wake_step_fields q k p :
  fgProcesses (wake_step q (k, p))
    = fgProcesses q ++ filter fg_class (woken_of [(k, p)])
  ∧ bgProcesses (wake_step q (k, p))
    = bgProcesses q ++ filter bg_class (woken_of [(k, p)])
  ∧ bgCount (wake_step q (k, p))
    = bgCount q + Z.of_nat (length (filter bg_class (woken_of [(k, p)])))
  ∧ processCount (wake_step q (k, p)) = processCount q
  ∧ waitQueue (wake_step q (k, p))
    = match stay p with
      | Some p' => <[k := p']> (waitQueue q)
      | None => delete k (waitQueue q)
      end.
Proof.
  unfold stay. destruct (decide (expired p)) as [He|He].
  - rewrite woken_of_expired by done.
    destruct (isForeground p) eqn:Hf.
    + rewrite wake_step_expired_fg by done. simpl.
      rewrite (filter_cons_True fg_class), (filter_cons_False bg_class)
        by (unfold fg_class, bg_class; simpl; congruence).
      rewrite !filter_nil, app_nil_r. simpl. split_and!; try done; lia.
    + rewrite wake_step_expired_bg by done. simpl.
      rewrite (filter_cons_True bg_class), (filter_cons_False fg_class)
        by (unfold fg_class, bg_class; simpl; congruence).
      rewrite !filter_nil, app_nil_r. simpl. split_and!; try done; lia.
  - rewrite woken_of_staying, wake_step_staying by done. simpl.
    rewrite !filter_nil, !app_nil_r. simpl. split_and!; try done; lia.
Qed.

Lemma wake_step_wait_eq q k p : waitQueue (wake_step q (k, p)) !! k = stay p.
Proof.
  destruct (wake_step_fields q k p) as (_ & _ & _ & _ & ->).
  destruct (stay p); [apply lookup_insert_eq | apply lookup_delete_eq].
Qed.

Lemma wake_step_wait_ne q k p k' :
  k ≠ k' → waitQueue (wake_step q (k, p)) !! k' = waitQueue q !! k'.
Proof.
  intros Hne. destruct (wake_step_fields q k p) as (_ & _ & _ & _ & ->).
  destruct (stay p); [by apply lookup_insert_ne | by apply lookup_delete_ne].
Qed.

(** The loop only ever touches the entry it is visiting, so the entries
    still to be visited are those of the map before the loop. *)
Lemma wake_step_pending q k p l :
  NoDup ((k, p) :: l).*1 →
  (∀ k' p', (k', p') ∈ (k, p) :: l → waitQueue q !! k' = Some p') →
  NoDup l.*1
  ∧ ∀ k' p', (k', p') ∈ l → waitQueue (wake_step q (k, p)) !! k' = Some p'.
Proof.
  rewrite fmap_cons. intros [Hk Hl]%NoDup_cons Hq. split; [done|].
  intros k' p' Hin. rewrite wake_step_wait_ne; [apply Hq; by right|].
  intros ->. apply Hk. by apply (list_elem_of_fmap_2 fst _ (k', p')).
Qed.

Lemma foldl_wake_fields l q :
  fgProcesses (foldl wake_step q l)
    = fgProcesses q ++ filter fg_class (woken_of l)
  ∧ bgProcesses (foldl wake_step q l)
    = bgProcesses q ++ filter bg_class (woken_of l)
  ∧ bgCount (foldl wake_step q l)
    = bgCount q + Z.of_nat (length (filter bg_class (woken_of l)))
  ∧ processCount (foldl wake_step q l) = processCount q.
Proof.
  induction l as [|[k p] l IH] in q |- *; simpl.
  - rewrite !app_nil_r. split_and!; try done; lia.
  - destruct (IH (wake_step q (k, p))) as (-> & -> & -> & ->).
    destruct (wake_step_fields q k p) as (-> & -> & -> & -> & _).
    rewrite (woken_of_cons k p l), !filter_app, length_app, <-!app_assoc.
    split_and!; try done; lia.
Qed.

Lemma foldl_wake_wait l q k :
  NoDup l.*1 →
  (∀ k' p', (k', p') ∈ l → waitQueue q !! k' = Some p') →
  waitQueue (foldl wake_step q l) !! k
  = if decide (k ∈ l.*1) then waitQueue q !! k ≫= stay else waitQueue q !! k.
Proof.
  induction l as [|[k0 p0] l IH] in q |- *; intros Hnd Hq; cbn [foldl].
  - rewrite decide_False; [done|]. apply not_elem_of_nil.
  - destruct (wake_step_pending q k0 p0 l Hnd Hq) as [Hnd' Hq'].
    rewrite IH by done.
    assert (k0 ∉ l.*1) as Hk0.
    { rewrite fmap_cons in Hnd. by apply NoDup_cons in Hnd as [? _]. }
    rewrite fmap_cons. cbn [fst].
    destruct (decide (k = k0)) as [->|Hne].
    + rewrite decide_False by done. rewrite decide_True by left.
      rewrite wake_step_wait_eq, (Hq k0 p0) by left. done.
    + rewrite wake_step_wait_ne by done.
      destruct (decide (k ∈ l.*1)) as [Hin|Hin].
      * rewrite decide_True by by right. done.
      * rewrite decide_False; [done|]. by intros [?|?]%elem_of_cons.
Qed.

(** Whatever every visit preserves, the whole traversal preserves. *)
Lemma foldl_wake_invariant (P : DynamicQueue → Prop) :
  (∀ q k p, P q → waitQueue q !! k = Some p → P (wake_step q (k, p))) →
  ∀ l q,
    NoDup l.*1 →
    (∀ k p, (k, p) ∈ l → waitQueue q !! k = Some p) →
    P q → P (foldl wake_step q l).
Proof.
  intros Hstep l. induction l as [|[k p] l IH]; intros q Hnd Hq HP; simpl; [done|].
  destruct (wake_step_pending q k p l Hnd Hq) as [Hnd' Hq'].
  apply IH; [done..|]. apply Hstep; [done|]. apply Hq. left.
Qed.

Lemma wake_invariant (P : DynamicQueue → Prop) :
  (∀ q k p, P q → waitQueue q !! k = Some p → P (wake_step q (k, p))) →
  ∀ q, P q → P (wakeUpProcesses q).
Proof.
  intros Hstep q HP. unfold wakeUpProcesses.
  apply (foldl_wake_invariant P Hstep); [|by intros; apply elem_of_wait_entries|done].
  apply NoDup_wait_keys.
Qed.

Lemma wake_fg q :
  fgProcesses (wakeUpProcesses q) = fgProcesses q ++ filter fg_class (woken q).
Proof. apply foldl_wake_fields. Qed.

Lemma wake_bg q :
  bgProcesses (wakeUpProcesses q) = bgProcesses q ++ filter bg_class (woken q).
Proof. apply foldl_wake_fields. Qed.

Lemma wake_bgCount q :
  bgCount (wakeUpProcesses q)
  = bgCount q + Z.of_nat (length (filter bg_class (woken q))).
Proof. apply foldl_wake_fields. Qed.

Lemma wake_processCount q : processCount (wakeUpProcesses q) = processCount q.
Proof. apply foldl_wake_fields. Qed.

Lemma wake_wait q : waitQueue (wakeUpProcesses q) = omap stay (waitQueue q).
Proof.
  apply map_eq. intros k. unfold wakeUpProcesses.
  rewrite lookup_omap, foldl_wake_wait.
  - case_decide as Hin; [done|].
    rewrite elem_of_wait_keys in Hin.
    by destruct (waitQueue q !! k) as [p|]; [destruct Hin; eauto|].
  - apply NoDup_wait_keys.
  - intros k' p'. apply elem_of_wait_entries.
Qed.

Lemma wake_empty q : waitQueue q = ∅ → wakeUpProcesses q = q.
Proof. intros H. unfold wakeUpProcesses. by rewrite H, wait_entries_empty. Qed.
End wake.

(** ** simulateSleep: the three ways through the function *)

Section sleep.
Implicit Types (q : DynamicQueue) (l : list Process) (pid s : Z) (p : Process).

Lemma find_if_split pid l i p :
  find_if pid l = Some (i, p) →
  ∃ l1 l2,
    l = l1 ++ p :: l2 ∧ delete i l = l1 ++ l2 ∧ id p = pid
    ∧ Forall (λ x, id x ≠ pid) l1 ∧ i = length l1.
Proof.
  intros (Hi & Hp & Hleast)%list_find_Some.
  exists (take i l), (drop (S i) l).
  pose proof (lookup_lt_Some _ _ _ Hi) as Hlt.
  split_and!.
  - by rewrite take_drop_middle.
  - apply delete_take_drop.
  - done.
  - apply Forall_forall. intros x Hx.
    apply list_elem_of_lookup in Hx as [j Hj].
    apply lookup_take_Some in Hj as [Hj Hji]. by apply (Hleast j x).
  - rewrite length_take_le; [done|]. apply Nat.lt_le_incl, Hlt.
Qed.

Lemma find_if_None pid l : find_if pid l = None ↔ pid ∉ id <$> l.
Proof.
  unfold find_if. rewrite list_find_None, Forall_forall, list_elem_of_fmap.
  split.
  - intros H (x & -> & Hx). by apply (H x).
  - intros H x Hx Hid. apply H. by exists x.
Qed.

Lemma find_if_is_Some pid l : is_Some (find_if pid l) ↔ pid ∈ id <$> l.
Proof.
  destruct (find_if pid l) as [[i p]|] eqn:Hf.
  - split; [intros _|by eauto].
    apply find_if_split in Hf as (l1 & l2 & -> & _ & <- & _).
    rewrite fmap_app, fmap_cons. apply elem_of_app. right. left.
  - apply find_if_None in Hf. split; [by intros [? ?]|done].
Qed.

Lemma in_ready_find pid q :
  in_ready pid q ↔
  is_Some (find_if pid (fgProcesses q)) ∨ is_Some (find_if pid (bgProcesses q)).
Proof.
  unfold in_ready, ready. by rewrite fmap_app, elem_of_app, !find_if_is_Some.
Qed.

Lemma simulateSleep_fg pid s q i p :
  find_if pid (fgProcesses q) = Some (i, p) →
  simulateSleep pid s q
  = Some (mkDynamicQueue (delete i (fgProcesses q)) (bgProcesses q)
            (<[pid := set_remainingTime s p]> (waitQueue q))
            (processCount q) (bgCount q)).
Proof.
  intros Hf. unfold simulateSleep. rewrite Hf. simpl.
  by rewrite lookup_insert_eq, insert_insert_eq.
Qed.

Lemma simulateSleep_bg pid s q i p :
  find_if pid (fgProcesses q) = None →
  find_if pid (bgProcesses q) = Some (i, p) →
  simulateSleep pid s q
  = Some (mkDynamicQueue (fgProcesses q) (delete i (bgProcesses q))
            (<[pid := set_remainingTime s p]> (waitQueue q))
            (processCount q) (bgCount q - 1)).
Proof.
  intros Hf Hb. unfold simulateSleep. rewrite Hf, Hb. simpl.
  by rewrite lookup_insert_eq, insert_insert_eq.
Qed.

(** The statement after the two searches is not guarded: when neither
    search finds the pid it still goes through [waitQueue[pid]]. *)
Lemma simulateSleep_not_ready pid s q :
  ¬ in_ready pid q →
  simulateSleep pid s q
  = match waitQueue q !! pid with
    | Some p =>
        Some (mkDynamicQueue (fgProcesses q) (bgProcesses q)
                (<[pid := set_remainingTime s p]> (waitQueue q))
                (processCount q) (bgCount q))
    | None => None
    end.
Proof.
  rewrite in_ready_find. intros Hn. unfold simulateSleep.
  destruct (find_if pid (fgProcesses q)) eqn:Hf; [destruct Hn; eauto|].
  destruct (find_if pid (bgProcesses q)) eqn:Hb; [destruct Hn; eauto|].
  done.
Qed.

Lemma simulateSleep_ready pid s q :
  in_ready pid q → is_Some (simulateSleep pid s q).
Proof.
  rewrite in_ready_find. intros Hr.
  destruct (find_if pid (fgProcesses q)) as [[i p]|] eqn:Hf.
  - erewrite simulateSleep_fg by done. eauto.
  - destruct Hr as [[? ?]|[[i p] Hb]]; [done|].
    erewrite simulateSleep_bg by done. eauto.
Qed.

(** Every successful call went through one of the three ways. *)
Lemma simulateSleep_Some pid s q q' :
  simulateSleep pid s q = Some q' →
  (∃ i p, find_if pid (fgProcesses q) = Some (i, p)
     ∧ q' = mkDynamicQueue (delete i (fgProcesses q)) (bgProcesses q)
              (<[pid := set_remainingTime s p]> (waitQueue q))
              (processCount q) (bgCount q))
  ∨ (∃ i p, find_if pid (fgProcesses q) = None
     ∧ find_if pid (bgProcesses q) = Some (i, p)
     ∧ q' = mkDynamicQueue (fgProcesses q) (delete i (bgProcesses q))
              (<[pid := set_remainingTime s p]> (waitQueue q))
              (processCount q) (bgCount q - 1))
  ∨ (∃ p, ¬ in_ready pid q ∧ waitQueue q !! pid = Some p
     ∧ q' = mkDynamicQueue (fgProcesses q) (bgProcesses q)
              (<[pid := set_remainingTime s p]> (waitQueue q))
              (processCount q) (bgCount q)).
Proof.
  intros Hs.
  destruct (find_if pid (fgProcesses q)) as [[i p]|] eqn:Hf.
  { left. exists i, p. split; [done|].
    rewrite (simulateSleep_fg _ _ _ _ _ Hf) in Hs. congruence. }
  destruct (find_if pid (bgProcesses q)) as [[i p]|] eqn:Hb.
  { right; left. exists i, p. split_and!; [done..|].
    rewrite (simulateSleep_bg _ _ _ _ _ Hf Hb) in Hs. congruence. }
  right; right.
  assert (¬ in_ready pid q) as Hn.
  { rewrite in_ready_find, Hf, Hb. by intros [[? ?]|[? ?]]. }
  rewrite (simulateSleep_not_ready _ _ _ Hn) in Hs.
  destruct (waitQueue q !! pid) as [p|]; [|done].
  exists p. split_and!; [done..|congruence].
Qed.
End sleep.

(** ** Invariants of the three mutators *)

Section class_invariant.
Implicit Types (q : DynamicQueue) (p : Process).

Lemma class_ok_empty : class_ok emptyQueue.
Proof. split; constructor. Qed.

Lemma class_ok_enqueue q p : class_ok q → class_ok (enqueue p q).
Proof.
  intros [Hf Hb]. unfold enqueue, class_ok.
  destruct (isForeground p) eqn:Hp; simpl.
  - split; [|done]. apply Forall_app. split; [done|]. by constructor.
  - split; [done|]. apply Forall_app. split; [done|]. by constructor.
Qed.

Lemma class_ok_sleep q pid s q' :
  class_ok q → simulateSleep pid s q = Some q' → class_ok q'.
Proof.
  intros [Hf Hb] Hs.
  apply simulateSleep_Some in Hs
    as [(i & p & _ & ->)|[(i & p & _ & _ & ->)|(p & _ & _ & ->)]];
    split; simpl; auto using Forall_delete.
Qed.

Lemma filter_Forall {A} (P : A → Prop) `{!∀ x, Decision (P x)} (l : list A) :
  Forall P (filter P l).
Proof. apply Forall_forall. by intros x [? _]%list_elem_of_filter. Qed.

Lemma class_ok_wake q : class_ok q → class_ok (wakeUpProcesses q).
Proof.
  intros [Hf Hb]. split.
  - rewrite wake_fg. apply Forall_app. split; [done|]. apply filter_Forall.
  - rewrite wake_bg. apply Forall_app. split; [done|]. apply filter_Forall.
Qed.

Lemma class_ok_reachable guard q : reachable_with guard q → class_ok q.
Proof.
  induction 1;
    eauto using class_ok_empty, class_ok_enqueue, class_ok_sleep, class_ok_wake.
Qed.
End class_invariant.

Section count_invariant.
Implicit Types (q : DynamicQueue) (p : Process) (k pid : Z).




End count_invariant.

Section id_invariant.
Implicit Types (q : DynamicQueue) (p : Process) (k pid : Z).

Lemma in_ready_perm q q' p :
  ready q' ≡ₚ p :: ready q →
  ∀ k, in_ready k q' ↔ k = id p ∨ in_ready k q.
Proof.
  intros Hp k. unfold in_ready. by rewrite Hp, fmap_cons, elem_of_cons.
Qed.

Lemma ready_enqueue q p : ready (enqueue p q) ≡ₚ p :: ready q.
Proof.
  unfold ready, enqueue. destruct (isForeground p); simpl.
  - rewrite <-app_assoc. simpl. by rewrite <-Permutation_middle.
  - by rewrite app_assoc, <-Permutation_cons_append.
Qed.

Lemma ready_delete_fg q i p (w : gmap Z Process) n b :
  find_if (id p) (fgProcesses q) = Some (i, p) →
  ready q
  ≡ₚ p :: ready (mkDynamicQueue (delete i (fgProcesses q)) (bgProcesses q) w n b).
Proof.
  intros (l1 & l2 & Hl & -> & _)%find_if_split. unfold ready. simpl.
  rewrite Hl, <-!app_assoc. simpl. by rewrite <-Permutation_middle.
Qed.

Lemma ready_delete_bg q i p (w : gmap Z Process) n b :
  find_if (id p) (bgProcesses q) = Some (i, p) →
  ready q
  ≡ₚ p :: ready (mkDynamicQueue (fgProcesses q) (delete i (bgProcesses q)) w n b).
Proof.
  intros (l1 & l2 & Hl & -> & _)%find_if_split. unfold ready. simpl.
  by rewrite Hl, <-!Permutation_middle.
Qed.

Lemma find_if_id pid l i p : find_if pid l = Some (i, p) → id p = pid.
Proof. by intros (_ & _ & _ & _ & ? & _)%find_if_split. Qed.

(** Moving [p] out of the ready lists into the wait map. *)
Lemma ids_ok_move_to_wait q q' p s :
  ids_ok q →
  ready q ≡ₚ p :: ready q' →
  waitQueue q' = <[id p := set_remainingTime s p]> (waitQueue q) →
  ids_ok q' ∧ size (waitQueue q') = S (size (waitQueue q)).
Proof.
  intros (Hnd & Hkey & Hdis) Hp Hw.
  rewrite Hp, fmap_cons in Hnd. apply NoDup_cons in Hnd as [Hnotin Hnd].
  assert (∀ k, in_ready k q ↔ k = id p ∨ in_ready k q') as Hr.
  { intros k. unfold in_ready. by rewrite Hp, fmap_cons, elem_of_cons. }
  assert (waitQueue q !! id p = None) as Hfree by (apply Hdis, Hr; by left).
  split; [split_and!|].
  - done.
  - rewrite Hw. by apply map_Forall_insert_2.
  - intros k Hk. rewrite Hw, lookup_insert_ne.
    + apply Hdis, Hr. by right.
    + intros <-. by apply Hnotin.
  - rewrite Hw. by apply map_size_insert_None.
Qed.

Lemma ids_ok_enqueue q p : ¬ held (id p) q → ids_ok q → ids_ok (enqueue p q).
Proof.
  intros Hfresh (Hnd & Hkey & Hdis).
  pose proof (in_ready_perm _ _ _ (ready_enqueue q p)) as Hr.
  assert (waitQueue (enqueue p q) = waitQueue q) as Hw
      by (unfold enqueue; by destruct (isForeground p)).
  split_and!.
  - rewrite (ready_enqueue q p), fmap_cons. apply NoDup_cons. split; [|done].
    intros Hin. apply Hfresh. by left.
  - by rewrite Hw.
  - intros k [->|Hk]%Hr; rewrite Hw; [|by apply Hdis].
    destruct (waitQueue q !! id p) eqn:E; [|done].
    destruct Hfresh. right. by eexists.
Qed.

Lemma ids_ok_sleep q pid s q' :
  ids_ok q → simulateSleep pid s q = Some q' → ids_ok q'.
Proof.
  intros Hok Hs.
  apply simulateSleep_Some in Hs
    as [(i & p & Hf & ->)|[(i & p & _ & Hf & ->)|(p & Hn & Hw & ->)]].
  - pose proof (find_if_id _ _ _ _ Hf) as <-.
    eapply (ids_ok_move_to_wait q _ p s); [done| |done].
    by apply ready_delete_fg.
  - pose proof (find_if_id _ _ _ _ Hf) as <-.
    eapply (ids_ok_move_to_wait q _ p s); [done| |done].
    by apply ready_delete_bg.
  - destruct Hok as (Hnd & Hkey & Hdis). split_and!; simpl.
    + done.
    + apply map_Forall_insert_2; [|done]. simpl. by apply (Hkey pid p).
    + intros k Hk. rewrite lookup_insert_ne; [by apply Hdis|].
      intros <-. by apply Hn.
Qed.

Lemma ids_ok_wake_step q k p :
  ids_ok q → waitQueue q !! k = Some p → ids_ok (wake_step q (k, p)).
Proof.
  intros (Hnd & Hkey & Hdis) Hk.
  assert (id p = k) as Hid by by apply (Hkey k p).
  assert (¬ in_ready k q) as Hnr.
  { intros Hr. apply Hdis in Hr. congruence. }
  assert (∀ q', ready q' ≡ₚ tick p :: ready q →
                waitQueue q' = delete k (waitQueue q) → ids_ok q') as Hmove.
  { intros q' Hp Hw.
    pose proof (in_ready_perm _ _ _ Hp) as Hr. split_and!.
    - rewrite Hp, fmap_cons. apply NoDup_cons. split; [|done].
      simpl. by rewrite Hid.
    - rewrite Hw. by apply map_Forall_delete.
    - intros k' Hk'. rewrite Hw. apply lookup_delete_None.
      apply Hr in Hk' as [->|Hk']; [left; by simpl|right; by apply Hdis]. }
  destruct (decide (expired p)) as [He|He].
  - destruct (isForeground p) eqn:Hf.
    + rewrite wake_step_expired_fg by done. apply Hmove; [|done].
      unfold ready. simpl. rewrite <-app_assoc. simpl.
      by rewrite <-Permutation_middle.
    + rewrite wake_step_expired_bg by done. apply Hmove; [|done].
      unfold ready. simpl.
      by rewrite app_assoc, <-Permutation_cons_append.
  - rewrite wake_step_staying by done. split_and!; simpl.
    + done.
    + apply map_Forall_insert_2; [by simpl|done].
    + intros k' Hk'. rewrite lookup_insert_ne; [by apply Hdis|].
      by intros <-.
Qed.

Lemma ids_ok_wake q : ids_ok q → ids_ok (wakeUpProcesses q).
Proof. apply wake_invariant. intros. by apply ids_ok_wake_step. Qed.

Lemma ids_ok_empty : ids_ok emptyQueue.
Proof.
  split_and!.
  - constructor.
  - apply map_Forall_empty.
  - intros k _. apply lookup_empty.
Qed.

Lemma ids_ok_reachable q : reachable_fresh q → ids_ok q.
Proof.
  induction 1; eauto using ids_ok_empty, ids_ok_enqueue, ids_ok_sleep, ids_ok_wake.
Qed.
End id_invariant.

Section process_count.
Implicit Types (q : DynamicQueue) (p : Process) (k pid : Z).

Lemma size_delete_Some (m : gmap Z Process) k p :
  m !! k = Some p → size m = S (size (delete k m)).
Proof.
  intros H. rewrite <-(insert_id m k p H) at 1. rewrite <-insert_delete_eq.
  apply map_size_insert_None, lookup_delete_eq.
Qed.

Lemma counts_ok_enqueue q p : counts_ok q → counts_ok (enqueue p q).
Proof.
  unfold counts_ok, enqueue. intros [Hn Hb].
  destruct (isForeground p); simpl; rewrite ?length_app; simpl; lia.
Qed.

Lemma counts_ok_sleep q pid s q' :
  ids_ok q → counts_ok q → simulateSleep pid s q = Some q' → counts_ok q'.
Proof.
  intros Hok [Hn Hb] Hs. unfold counts_ok.
  apply simulateSleep_Some in Hs
    as [(i & p & Hf & ->)|[(i & p & _ & Hf & ->)|(p & _ & Hw & ->)]]; simpl.
  - pose proof (find_if_id _ _ _ _ Hf) as <-.
    destruct (ids_ok_move_to_wait q
      (mkDynamicQueue (delete i (fgProcesses q)) (bgProcesses q)
         (<[id p := set_remainingTime s p]> (waitQueue q))
         (processCount q) (bgCount q)) p s Hok) as [_ Hsz];
      [by apply ready_delete_fg|done|].
    simpl in Hsz. rewrite Hsz.
    apply find_if_split in Hf as (l1 & l2 & Hl & -> & _).
    rewrite Hl, !length_app in *. simpl in *. lia.
  - pose proof (find_if_id _ _ _ _ Hf) as <-.
    destruct (ids_ok_move_to_wait q
      (mkDynamicQueue (fgProcesses q) (delete i (bgProcesses q))
         (<[id p := set_remainingTime s p]> (waitQueue q))
         (processCount q) (bgCount q - 1)) p s Hok) as [_ Hsz];
      [by apply ready_delete_bg|done|].
    simpl in Hsz. rewrite Hsz.
    apply find_if_split in Hf as (l1 & l2 & Hl & -> & _).
    rewrite Hl, !length_app in *. simpl in *. lia.
  - rewrite map_size_insert_Some by eauto. lia.
Qed.

Lemma counts_ok_wake_step q k p :
  counts_ok q → waitQueue q !! k = Some p → counts_ok (wake_step q (k, p)).
Proof.
  unfold counts_ok. intros [Hn Hb] Hk.
  pose proof (size_delete_Some _ _ _ Hk) as Hsz.
  destruct (decide (expired p)) as [He|He].
  - destruct (isForeground p) eqn:Hf.
    + rewrite wake_step_expired_fg by done. simpl. rewrite length_app. simpl. lia.
    + rewrite wake_step_expired_bg by done. simpl. rewrite length_app. simpl. lia.
  - rewrite wake_step_staying by done. simpl.
    rewrite map_size_insert_Some by eauto. lia.
Qed.

Lemma counts_ok_wake q : counts_ok q → counts_ok (wakeUpProcesses q).
Proof. apply wake_invariant. intros. by apply counts_ok_wake_step. Qed.

Lemma counts_ok_empty : counts_ok emptyQueue.
Proof. split; reflexivity. Qed.






End process_count.

(** Building a derivation of reachability for a concrete queue: name the
    operation and the queue it was applied to. *)
Ltac by_enqueue p q0 :=
  unfold reachable, reachable_fresh;
  lazymatch goal with
  | |- reachable_with ?g ?q =>
      replace q with (enqueue p q0) by (by vm_compute);
      apply (reach_enqueue g q0 p); [|cbv beta; first [exact I|compute_done]]
  end.

Ltac by_sleep pid s q0 :=
  unfold reachable, reachable_fresh;
  lazymatch goal with
  | |- reachable_with ?g ?q =>
      apply (reach_sleep g q0 pid s q); [|compute_done|by vm_compute]
  end.

Ltac by_wake q0 :=
  unfold reachable, reachable_fresh;
  lazymatch goal with
  | |- reachable_with ?g ?q =>
      replace q with (wakeUpProcesses q0) by (by vm_compute);
      apply (reach_wake g q0)
  end.

Lemma main_queue_reachable guard :
  guard shellProc emptyQueue →
  guard monitorProc (enqueue shellProc emptyQueue) →
  reachable_with guard main_queue.
Proof. intros H0 H1. by repeat apply reach_enqueue; try apply reach_empty. Qed.

Lemma reachable_with_mono (g1 g2 : Process → DynamicQueue → Prop) q :
  (∀ p q', g1 p q' → g2 p q') → reachable_with g1 q → reachable_with g2 q.
Proof.
  intros Hg Hq. induction Hq as [|q p _ IH Hp|q pid s q' _ IH Hr Hs|q _ IH].
  - apply reach_empty.
  - apply reach_enqueue; [done|by apply Hg].
  - by apply (reach_sleep g2 q pid s).
  - by apply reach_wake.
Qed.

Lemma reachable_fresh_reachable q : reachable_fresh q → reachable q.
Proof. by apply reachable_with_mono. Qed.


Lemma two_shell_rounds_reachable : reachable_fresh two_shell_rounds.
Proof.
  by_enqueue todo (mkDynamicQueue [shellProc] [monitorProc]
                     {[ 2 := set_remainingTime 10 alarm ]} 3 1).
  by_sleep 2 10 (enqueue alarm main_queue).
  apply reach_enqueue; [|compute_done].
  apply main_queue_reachable; compute_done.
Qed.

Lemma both_asleep_reachable : reachable_fresh both_asleep.
Proof.
  by_sleep 2 1 email_asleep.
  by_sleep 4 1 (enqueue email (enqueue alarm main_queue)).
  do 2 (apply reach_enqueue; [|compute_done]).
  apply main_queue_reachable; compute_done.
Qed.

(** ** C2: the two counters *)




(** ** C8: the foreground/background partition *)

(** C8: every reachable state keeps foreground processes in [fgProcesses]
    and background processes in [bgProcesses]; enqueue, sleep and tick_wake
    each preserve this from any state that has it, and tick_wake appends
    every woken process to the list of its own class. *)
Theorem C8_class_partition :
  (∀ q, reachable q → class_ok q)
  ∧ (∀ q p, class_ok q → class_ok (enqueue p q))
  ∧ (∀ q pid s q', class_ok q → simulateSleep pid s q = Some q' → class_ok q')
  ∧ (∀ q, class_ok q → class_ok (wakeUpProcesses q))
  ∧ (∀ q,
       fgProcesses (wakeUpProcesses q) = fgProcesses q ++ filter fg_class (woken q)
       ∧ bgProcesses (wakeUpProcesses q) = bgProcesses q ++ filter bg_class (woken q)).
Proof.
  split_and!.
  - intros q. apply class_ok_reachable.
  - apply class_ok_enqueue.
  - apply class_ok_sleep.
  - apply class_ok_wake.
  - intros q. split; [apply wake_fg|apply wake_bg].
Qed.

Lemma C8_class_partition_witness :
  reachable two_shell_rounds
  ∧ fgProcesses two_shell_rounds = [shellProc]
  ∧ bgProcesses two_shell_rounds = [monitorProc; todo]
  ∧ class_ok two_shell_rounds
  ∧ reachable both_asleep
  ∧ fgProcesses (wakeUpProcesses both_asleep)
    = [shellProc; set_remainingTime 0 alarm; set_remainingTime 0 email]
  ∧ class_ok (wakeUpProcesses both_asleep).
Proof.
  assert (reachable two_shell_rounds) as H1
      by exact (reachable_fresh_reachable _ two_shell_rounds_reachable).
  assert (reachable both_asleep) as H2
      by exact (reachable_fresh_reachable _ both_asleep_reachable).
  destruct C8_class_partition as (Hreach & _ & _ & Hwake & _).
  split_and!; [exact H1|reflexivity|reflexivity| |exact H2|by vm_compute|].
  - exact (Hreach two_shell_rounds H1).
  - exact (Hwake both_asleep (Hreach both_asleep H2)).
Defined.

(** ** C1: simulateSleep on a pid that is in neither ready list *)

(** C1 (the code at the failing inputs): pid 9 is unknown to the bootstrap
    queue and [simulateSleep 9 3] has no defined result there; pid 2 is in
    the wait map of [alarm_asleep] with ten ticks left, in neither ready
    list, and [simulateSleep 2 3] overwrites the ten with three. *)
Theorem C1_sleep_not_found_diverges :
  (¬ held 9 main_queue ∧ simulateSleep 9 3 main_queue = None)
  ∧ (¬ in_ready 2 alarm_asleep
     ∧ remainingTime <$> waitQueue alarm_asleep !! 2 = Some 10
     ∧ ∃ q', simulateSleep 2 3 alarm_asleep = Some q'
             ∧ remainingTime <$> waitQueue q' !! 2 = Some 3
             ∧ q' ≠ alarm_asleep).
Proof.
  split_and!; try compute_done.
  eexists. split_and!; [by vm_compute|compute_done|].
  intros Heq. apply (f_equal (λ q, remainingTime <$> waitQueue q !! 2)) in Heq.
  vm_compute in Heq. discriminate.
Qed.

(** ** C3: remaining times in the wait map *)

Section wait_positive.
Implicit Types (q : DynamicQueue) (p : Process) (k pid s : Z).

Lemma simulateSleep_wait pid s q q' :
  simulateSleep pid s q = Some q' →
  ∃ p, waitQueue q' = <[pid := set_remainingTime s p]> (waitQueue q).
Proof.
  intros Hs. apply simulateSleep_Some in Hs
    as [(i & p & Hf & ->)|[(i & p & _ & Hf & ->)|(p & _ & Hw & ->)]];
    by exists p.
Qed.

Lemma enqueue_wait q p : waitQueue (enqueue p q) = waitQueue q.
Proof. unfold enqueue. by destruct (isForeground p). Qed.

Lemma wait_positive_enqueue q p : wait_positive q → wait_positive (enqueue p q).
Proof. unfold wait_positive. by rewrite enqueue_wait. Qed.

Lemma wait_positive_sleep q pid s q' :
  0 < s → wait_positive q → simulateSleep pid s q = Some q' → wait_positive q'.
Proof.
  unfold wait_positive. intros Hpos Hq Hs.
  apply simulateSleep_wait in Hs as (p & ->).
  by apply map_Forall_insert_2.
Qed.

Lemma wait_positive_wake q : wait_positive (wakeUpProcesses q).
Proof.
  unfold wait_positive. rewrite wake_wait. intros k p'.
  rewrite lookup_omap_Some. intros (p & Hstay & _).
  unfold stay in Hstay. case_decide as He; [done|].
  injection Hstay as <-. unfold expired in He. simpl. lia.
Qed.

Lemma wait_positive_run cs q q' :
  Forall positive_sleep cs → wait_positive q → queue_run cs q = Some q' →
  wait_positive q'.
Proof.
  intros Hcs. revert q. induction Hcs as [|c cs Hc Hcs IH]; intros q Hq Hrun.
  - simpl in Hrun. by simplify_eq.
  - simpl in Hrun. destruct (queue_call c q) as [q1|] eqn:Hcall; [|done].
    simpl in Hrun. apply (IH q1); [|done].
    destruct c as [p|pid s| | |n]; simpl in Hcall, Hc; simplify_eq.
    + by apply wait_positive_enqueue.
    + by apply (wait_positive_sleep q pid s).
    + apply wait_positive_wake.
    + done.
    + done.
Qed.
End wait_positive.

(** C3, as stated, fails: a sleep of zero seconds leaves a wait entry with
    remaining time 0, and it stays there until the next tick. *)
Lemma C3_zero_sleep_counterexample :
  reachable_fresh (enqueue alarm main_queue)
  ∧ simulateSleep 2 0 (enqueue alarm main_queue) = Some zero_slept
  ∧ ¬ wait_positive zero_slept.
Proof.
  split_and!.
  - apply reach_enqueue; [|compute_done]. apply main_queue_reachable; compute_done.
  - by vm_compute.
  - intros H. specialize (H 2 (set_remainingTime 0 alarm)).
    assert (0 < 0); [|lia]. by apply H.
Qed.

(** C3 (amended): immediately after sleep(pid, seconds) the wait entry of
    pid has remaining time [seconds], whatever its sign, and no other wait
    entry has changed, so all remaining times in wait are positive when
    [seconds] is positive and they were positive before; enqueue does not
    touch the wait map; after tick_wake every process left in wait has a
    positive remaining time, a waiter whose decremented time is 0 or less
    being removed; hence every remaining time in wait is positive in every
    state reached from the empty queue by enqueues, ticks and sleeps with
    positive [seconds]. *)
Theorem C3_wait_positive :
  (∀ q pid s q',
     simulateSleep pid s q = Some q' →
     (remainingTime <$> waitQueue q' !! pid) = Some s
     ∧ ∀ k, k ≠ pid → waitQueue q' !! k = waitQueue q !! k)
  ∧ (∀ q pid s q',
       0 < s → wait_positive q → simulateSleep pid s q = Some q' →
       wait_positive q')
  ∧ (∀ q p, waitQueue (enqueue p q) = waitQueue q)
  ∧ (∀ q, wait_positive (wakeUpProcesses q))
  ∧ (∀ q k p,
       waitQueue q !! k = Some p →
       remainingTime p ≠ INT_MIN → remainingTime p - 1 ≤ 0 →
       waitQueue (wakeUpProcesses q) !! k = None)
  ∧ (∀ cs q,
       Forall positive_sleep cs → queue_run cs emptyQueue = Some q →
       wait_positive q).
Proof.
  split_and!.
  - intros q pid s q' Hs. apply simulateSleep_wait in Hs as (p & ->).
    split; [by rewrite lookup_insert_eq|].
    intros k Hk. by rewrite lookup_insert_ne.
  - apply wait_positive_sleep.
  - apply enqueue_wait.
  - apply wait_positive_wake.
  - intros q k p Hk Hmin He. rewrite wake_wait, lookup_omap, Hk. simpl.
    unfold stay. rewrite decide_True; [done|]. by apply int_dec_le_0.
  - intros cs q Hcs. apply wait_positive_run; [done|]. apply map_Forall_empty.
Qed.

Lemma C3_wait_positive_witness :
  wait_positive main_queue ∧ wait_positive alarm_asleep.
Proof.
  assert (wait_positive main_queue) as H0 by apply map_Forall_empty.
  split; [exact H0|].
  destruct C3_wait_positive as (_ & Hsleep & Henq & _).
  apply (Hsleep (enqueue alarm main_queue) 2 10).
  - lia.
  - unfold wait_positive. rewrite Henq. exact H0.
  - by vm_compute.
Defined.

(** ** C4: one tick of the wait-queue clock *)

(** C4: tick_wake replaces every wait entry [p] whose remaining time is
    not the smallest [int] by [p] with remaining time one less when that is
    still positive and removes it otherwise (so an entry at 0 or 1 leaves);
    the removed processes, decremented, are appended in traversal order to
    the ready list of their class, [bgCount] grows by the number appended to
    [bgProcesses], [processCount] is unchanged, and on an empty wait map
    nothing changes.  The smallest [int] is the one value that cannot be
    decremented: [woken] and [stay] follow the program there (see
    [wake_smallest_int]). *)
Theorem C4_tick_wake (q : DynamicQueue) :
  waitQueue (wakeUpProcesses q) = omap stay (waitQueue q)
  ∧ fgProcesses (wakeUpProcesses q) = fgProcesses q ++ filter fg_class (woken q)
  ∧ bgProcesses (wakeUpProcesses q) = bgProcesses q ++ filter bg_class (woken q)
  ∧ bgCount (wakeUpProcesses q)
    = bgCount q + Z.of_nat (length (filter bg_class (woken q)))
  ∧ processCount (wakeUpProcesses q) = processCount q
  ∧ (∀ p, p ∈ woken q ↔
          ∃ k p', waitQueue q !! k = Some p' ∧ remainingTime p' ≠ INT_MIN
                  ∧ remainingTime p' - 1 ≤ 0
                  ∧ p = set_remainingTime (remainingTime p' - 1) p')
  ∧ (∀ k p', waitQueue q !! k = Some p' → remainingTime p' ≠ INT_MIN →
       waitQueue (wakeUpProcesses q) !! k
       = if decide (remainingTime p' - 1 ≤ 0) then None
         else Some (set_remainingTime (remainingTime p' - 1) p'))
  ∧ wakeUpProcesses (mkDynamicQueue (fgProcesses q) (bgProcesses q) ∅
                       (processCount q) (bgCount q))
    = mkDynamicQueue (fgProcesses q) (bgProcesses q) ∅ (processCount q) (bgCount q).
Proof.
  split_and!.
  - apply wake_wait.
  - apply wake_fg.
  - apply wake_bg.
  - apply wake_bgCount.
  - apply wake_processCount.
  - intros p. unfold woken, woken_of.
    rewrite list_elem_of_fmap. split.
    + intros (p' & -> & [He Hin]%list_elem_of_filter).
      apply list_elem_of_fmap in Hin as ([k p''] & -> & Hin).
      apply elem_of_wait_entries in Hin.
      apply (int_dec_le_0 (remainingTime p'')) in He as [Hmin He].
      exists k, p''. split_and!; [done..|].
      unfold tick. by rewrite int_dec_pred.
    + intros (k & p' & Hk & Hmin & He & ->). exists p'. split.
      { unfold tick. by rewrite int_dec_pred. }
      apply list_elem_of_filter. split; [by apply int_dec_le_0|].
      apply list_elem_of_fmap. exists (k, p'). split; [done|].
      by apply elem_of_wait_entries.
  - intros k p' Hk Hmin. rewrite wake_wait, lookup_omap, Hk. simpl.
    unfold stay, tick.
    case_decide as H1; unfold expired in H1; rewrite int_dec_pred in H1 by done;
      case_decide as H2; try done.
    by rewrite int_dec_pred.
  - by apply wake_empty.
Qed.

(** ** printQueue *)

Section strings.
Implicit Types (s t u : string).

Lemma string_app_cons a s t : String a s +:+ t = String a (s +:+ t).
Proof. reflexivity. Qed.

Lemma string_app_empty_l s : "" +:+ s = s.
Proof. reflexivity. Qed.

Lemma string_app_empty_r s : s +:+ "" = s.
Proof. induction s as [|a s IH]; [done|]. by rewrite string_app_cons, IH. Qed.

Lemma string_app_assoc s t u : (s +:+ t) +:+ u = s +:+ (t +:+ u).
Proof. induction s as [|a s IH]; [done|]. by rewrite !string_app_cons, IH. Qed.

Lemma put_eq {A} `{Insertion A} (os : ostream) (x : A) : os << x = os +:+ render x.
Proof. reflexivity. Qed.
End strings.

Ltac flatten_strings :=
  rewrite ?put_eq; unfold render, insertion_string, insertion_int;
  rewrite ?string_app_assoc, ?string_app_empty_r, ?string_app_empty_l.

Section print.
Implicit Types (w : world) (p : Process).

Lemma toString_label p : toString p = label p.
Proof.
  unfold toString, label. destruct (promoted p); by flatten_strings.
Qed.

Lemma write_eq {A} `{Insertion A} (x : A) w :
  write x w = (tt, mkWorld (dq w) (cout w +:+ render x)).
Proof. reflexivity. Qed.

Lemma for_each_emits {A} (f : A → string) (body : A → io unit) (l : list A) :
  (∀ x w, body x w = (tt, mkWorld (dq w) (cout w +:+ f x))) →
  ∀ w, for_each l body w = (tt, mkWorld (dq w) (cout w +:+ glue (f <$> l))).
Proof.
  intros Hb. induction l as [|x l IH]; intros w; simpl.
  - unfold mret, io_ret. rewrite string_app_empty_r. by destruct w.
  - unfold mbind, io_bind. rewrite Hb, IH. simpl. by rewrite string_app_assoc.
Qed.

Lemma printQueue_emits w :
  printQueue w = (tt, mkWorld (dq w) (cout w +:+ snapshot (dq w))).
Proof.
  unfold printQueue, mbind, io_bind, load. cbn [write fst snd dq cout].
  rewrite (for_each_emits ready_item); cycle 1.
  { intros p w'. rewrite write_eq. cbn [dq cout]. unfold ready_item.
    rewrite toString_label. by flatten_strings. }
  cbn [dq cout].
  rewrite (for_each_emits ready_item); cycle 1.
  { intros p w'. rewrite write_eq. cbn [dq cout]. unfold ready_item.
    rewrite toString_label. by flatten_strings. }
  cbn [dq cout]. unfold compose.
  rewrite (for_each_emits wait_item); cycle 1.
  { intros p w'. rewrite write_eq. cbn [dq cout]. unfold wait_item.
    rewrite toString_label. by flatten_strings. }
  rewrite write_eq. cbn [dq cout]. f_equal. f_equal.
  unfold snapshot, snapshot_lines. cbn [fmap list_fmap glue].
  by flatten_strings.
Qed.

(** Reading the queue is compositional. *)
Lemma read_only_ret {A} (a : A) : read_only (mret a).
Proof. by intros w. Qed.

Lemma read_only_bind {A B} (m : io A) (k : A → io B) :
  read_only m → (∀ a, read_only (k a)) → read_only (m ≫= k).
Proof.
  intros Hm Hk w. unfold mbind, io_bind.
  specialize (Hm w). destruct (m w) as [a w']. simpl in Hm.
  by rewrite Hk.
Qed.

Lemma read_only_load {A} (field : DynamicQueue → A) : read_only (load field).
Proof. by intros w. Qed.

Lemma read_only_write {A} `{Insertion A} (x : A) : read_only (write x).
Proof. by intros w. Qed.

Lemma read_only_for_each {A} (l : list A) (body : A → io unit) :
  (∀ x, read_only (body x)) → read_only (for_each l body).
Proof.
  intros Hb. induction l as [|x l IH]; simpl.
  - apply read_only_ret.
  - apply read_only_bind; [apply Hb|by intros _].
Qed.

Lemma read_only_printQueue : read_only printQueue.
Proof.
  unfold printQueue.
  repeat first
    [ apply read_only_write
    | apply read_only_load
    | apply read_only_for_each; intros ?
    | apply read_only_bind; [|intros ?] ].
Qed.
End print.

(** The snapshot of the bootstrap queue with [alarm] asleep, as printed. *)
Example printQueue_alarm_asleep :
  cout (printQueue (mkWorld alarm_asleep "")).2
  = "Running: [1B]
---------------------------
DQ: (bottom) [1B] 
P => [0F] (top)
---------------------------
WQ: [2F: 10s] 
...
".
Proof. by vm_compute. Qed.

(** ** C9: the layout of a snapshot *)

(** C9: printQueue appends to the output exactly the seven lines of the
    layout, each ended by a line feed: the Running line with [bgCount], a
    separator, the DQ line with the background processes in list order, the
    P line with the foreground processes in list order and the closing
    (top), a separator, the WQ line with the wait entries in ascending key
    order, and the line of three dots; every listed item is followed by one
    space, and a process is labelled by its id, F or B, and a star exactly
    when it is promoted. *)
Theorem C9_print_snapshot (w : world) :
  cout (printQueue w).2 = cout w +:+ snapshot (dq w)
  ∧ (∀ p, toString p
          = pretty (id p) +:+ (if isForeground p then "F" else "B")
            +:+ (if promoted p then "*" else ""))
  ∧ StronglySorted (λ a b : Z * Process, a.1 < b.1)
      (wait_entries (waitQueue (dq w)))
  ∧ (∀ k p, (k, p) ∈ wait_entries (waitQueue (dq w))
            ↔ waitQueue (dq w) !! k = Some p).
Proof.
  split_and!.
  - by rewrite printQueue_emits.
  - apply toString_label.
  - apply wait_entries_ascending.
  - intros k p. apply elem_of_wait_entries.
Qed.

(** ** C10: printQueue is a pure observer *)

(** C10: printQueue leaves the queue exactly as it was: both ready lists,
    the wait map with every field of every process in them, and the two
    counters; this holds for the member function and for the call as the
    agents issue it. *)
Theorem C10_print_frame (w : world) :
  dq (printQueue w).2 = dq w
  ∧ (dq <$> run_call PrintQueue w) = Some (dq w)
  ∧ queue_call PrintQueue (dq w) = Some (dq w).
Proof.
  split_and!; [apply read_only_printQueue| |done].
  simpl. f_equal. apply read_only_printQueue.
Qed.

(** ** C5: the shell agent *)

Section shell.
Implicit Types (interval : Z).

Lemma shellProcess_calls interval :
  shellProcess interval
  = [ Enqueue alarm; SimulateSleep 2 (int_mul interval 2); SleepFor interval;
      PrintQueue;
      Enqueue todo; SleepFor interval; PrintQueue;
      Enqueue email; SleepFor interval; PrintQueue;
      Enqueue music; SimulateSleep 5 (int_mul interval 2); SleepFor interval;
      PrintQueue;
      Enqueue video; SleepFor interval; PrintQueue;
      Enqueue browser; SleepFor interval; PrintQueue ].
Proof. unfold shellProcess, commands. by cbv -[int_mul]. Qed.

(** What a trace does to the queue does not depend on the output. *)
Lemma run_queue cs w : dq <$> run cs w = queue_run cs (dq w).
Proof.
  induction cs as [|c cs IH] in w |- *; [done|].
  cbn [run queue_run].
  destruct c as [p|pid s| | |n]; cbn [run_call queue_call mbind option_bind].
  - by rewrite IH.
  - destruct (simulateSleep pid s (dq w)) as [q|]; [|done]. simpl. by rewrite IH.
  - by rewrite IH.
  - by rewrite IH, read_only_printQueue.
  - by rewrite IH.
Qed.
End shell.

(** C5: for every interval whose double is an [int], over its six
    commands, starting at id 2, the shell enqueues six processes with ids 2
    to 7 in catalogue order, each foreground exactly when its id is even,
    and calls sleep exactly for ids 2 and 5, with 2 * interval, directly
    after the enqueue of that process; run on its own from the bootstrap
    queue this leaves 2 and 5 in the wait map and the four others in the
    ready list of their class. *)
Theorem C5_shell_agent (interval : Z) :
  INT_MIN ≤ 2 * interval ≤ INT_MAX →
  id <$> created (shellProcess interval) = [2; 3; 4; 5; 6; 7]
  ∧ command <$> created (shellProcess interval) = commands
  ∧ Forall (λ p, isForeground p = Z.even (id p)
                 ∧ promoted p = false ∧ remainingTime p = 0)
      (created (shellProcess interval))
  ∧ slept (shellProcess interval) = [(2, 2 * interval); (5, 2 * interval)]
  ∧ (∀ (n : nat) pid s,
       shellProcess interval !! S n = Some (SimulateSleep pid s) →
       ∃ p, shellProcess interval !! n = Some (Enqueue p) ∧ id p = pid)
  ∧ queue_run (shellProcess interval) main_queue = Some (after_shell interval).
Proof.
  intros Hint. rewrite shellProcess_calls, (int_mul_2 interval Hint).
  split_and!.
  - done.
  - done.
  - repeat constructor.
  - done.
  - intros n pid s Hn.
    do 21 (destruct n as [|n]; [simpl in Hn; try discriminate; injection Hn as <- <-;
                                eexists; split; reflexivity|]).
    done.
  - unfold after_shell. generalize (2 * interval). intros z. by vm_compute.
Qed.

(** ** C6: a sleeper and the ticks that follow *)

Section sleeper.
Implicit Types (q : DynamicQueue) (p : Process) (pid s : Z) (n : nat).

Lemma ticks_S n q : ticks (S n) q = wakeUpProcesses (ticks n q).
Proof. reflexivity. Qed.

Lemma tick_set s p :
  s ≠ INT_MIN → tick (set_remainingTime s p) = set_remainingTime (s - 1) p.
Proof. intros Hs. unfold tick. simpl. by rewrite int_dec_pred. Qed.

Lemma expired_set s p :
  s ≠ INT_MIN → expired (set_remainingTime s p) ↔ s ≤ 1.
Proof. intros Hs. unfold expired. simpl. rewrite int_dec_pred by done. lia. Qed.

(** While more than one tick is left the sleeper only counts down. *)
Lemma sleeper_counts_down q pid s p n :
  waitQueue q !! pid = Some (set_remainingTime s p) →
  Z.of_nat n < s →
  waitQueue (ticks n q) !! pid = Some (set_remainingTime (s - Z.of_nat n) p).
Proof.
  intros Hq. induction n as [|n IH]; intros Hn.
  - change (ticks 0 q) with q. rewrite Hq. do 2 f_equal. simpl. lia.
  - rewrite ticks_S, wake_wait, lookup_omap, IH by lia. simpl.
    unfold stay. rewrite decide_False by (rewrite expired_set; int_lia).
    rewrite tick_set by int_lia. do 2 f_equal. lia.
Qed.

Lemma woken_of_split (l1 l2 : list (Z * Process)) pid p :
  expired p →
  woken_of (l1 ++ (pid, p) :: l2) = woken_of l1 ++ tick p :: woken_of l2.
Proof.
  intros He.
  by rewrite woken_of_app, (woken_of_cons pid p l2), (woken_of_expired pid p He).
Qed.

Lemma same_class_app p (l1 l2 : list Process) :
  same_class p (l1 ++ l2) = same_class p l1 ++ same_class p l2.
Proof. unfold same_class. destruct (isForeground p); apply filter_app. Qed.

Lemma same_class_cons p s (l : list Process) :
  same_class p (set_remainingTime s p :: l) = set_remainingTime s p :: same_class p l.
Proof.
  unfold same_class. destruct (isForeground p) eqn:Hf; by rewrite filter_cons_True.
Qed.

Lemma wake_native p q :
  native p (wakeUpProcesses q) = native p q ++ same_class p (woken q).
Proof.
  unfold native, same_class. destruct (isForeground p); [apply wake_fg|apply wake_bg].
Qed.

(** The tick on which a sleeper with one tick left goes home. *)
Lemma sleeper_goes_home q pid p :
  waitQueue q !! pid = Some (set_remainingTime 1 p) →
  waitQueue (wakeUpProcesses q) !! pid = None
  ∧ ∃ l1 l2,
      wait_entries (waitQueue q) = l1 ++ (pid, set_remainingTime 1 p) :: l2
      ∧ wait_entries (delete pid (waitQueue q)) = l1 ++ l2
      ∧ Forall (λ e, e.1 < pid) l1 ∧ Forall (λ e, pid < e.1) l2
      ∧ native p (wakeUpProcesses q)
        = native p q ++ same_class p (woken_of l1)
          ++ set_remainingTime 0 p :: same_class p (woken_of l2).
Proof.
  intros Hq.
  assert (expired (set_remainingTime 1 p)) as He
      by (apply expired_set; [by vm_compute|lia]).
  split.
  - rewrite wake_wait, lookup_omap, Hq. simpl. unfold stay. by rewrite decide_True.
  - destruct (wait_entries_split _ _ _ Hq) as (l1 & l2 & Hl & H1 & H2 & Hd).
    exists l1, l2. split_and!; [done..|].
    rewrite wake_native. unfold woken.
    rewrite Hl, (woken_of_split _ _ _ _ He), same_class_app, tick_set
      by (by vm_compute).
    by rewrite same_class_cons.
Qed.

Lemma tick_count_replicate n : tick_count (replicate n WakeUpProcesses) = n.
Proof. induction n as [|n IH]; simpl; congruence. Qed.

Lemma queue_run_app cs1 cs2 q :
  queue_run (cs1 ++ cs2) q = queue_run cs1 q ≫= queue_run cs2.
Proof.
  induction cs1 as [|c cs1 IH] in q |- *; [done|]. simpl.
  destruct (queue_call c q); simpl; [apply IH|done].
Qed.

Lemma queue_run_ticks n q :
  queue_run (replicate n WakeUpProcesses) q = Some (ticks n q).
Proof.
  induction n as [|n IH]; [done|].
  rewrite replicate_S_end, queue_run_app, IH. by simpl.
Qed.

(** A call other than a tick that does not put [pid] to sleep leaves the
    wait entry of [pid] alone. *)
Lemma queue_call_wait_other pid c q q' :
  leaves_alone pid c → c ≠ WakeUpProcesses → queue_call c q = Some q' →
  waitQueue q' !! pid = waitQueue q !! pid.
Proof.
  intros Hc Hne Hq. destruct c as [p'|pid' s'| | |n]; simpl in *; simplify_eq.
  - unfold enqueue. by destruct (isForeground p').
  - apply simulateSleep_Some in Hq
      as [(i & p' & _ & ->)|[(i & p' & _ & _ & ->)|(p' & _ & _ & ->)]];
      simpl; by rewrite lookup_insert_ne.
  - done.
  - done.
Qed.

(** The count-down of a sleeper among calls that leave it alone. *)
Lemma sleeper_interleaved pid s p cs q q2 :
  Forall (leaves_alone pid) cs →
  waitQueue q !! pid = Some (set_remainingTime s p) →
  queue_run cs q = Some q2 →
  Z.of_nat (tick_count cs) < s →
  waitQueue q2 !! pid = Some (set_remainingTime (s - Z.of_nat (tick_count cs)) p).
Proof.
  intros Hcs. revert s q.
  induction Hcs as [|c cs Hc Hcs IH]; intros s q Hq Hrun Hk.
  - simpl in *. simplify_eq. rewrite Hq. do 2 f_equal. lia.
  - simpl in Hrun. destruct (queue_call c q) as [q'|] eqn:Hcall; [|done].
    simpl in Hrun.
    destruct (decide (c = WakeUpProcesses)) as [->|Hne].
    + simpl in Hcall, Hk. simplify_eq.
      rewrite (IH (s - 1) (wakeUpProcesses q)); [|  |done|lia].
      * simpl. do 2 f_equal. lia.
      * rewrite wake_wait, lookup_omap, Hq. simpl. unfold stay.
        rewrite decide_False by (rewrite expired_set; int_lia).
        by rewrite tick_set by int_lia.
    + assert (tick_count (c :: cs) = tick_count cs) as Htc by by destruct c.
      rewrite Htc in *. apply (IH s q'); [|done..].
      by rewrite (queue_call_wait_other pid c q q').
Qed.

Lemma simulateSleep_ready_wait pid s q q1 :
  in_ready pid q → simulateSleep pid s q = Some q1 →
  ∃ p, p ∈ ready q ∧ id p = pid
       ∧ waitQueue q1 = <[pid := set_remainingTime s p]> (waitQueue q).
Proof.
  intros Hr Hs. apply simulateSleep_Some in Hs
    as [(i & p & Hf & ->)|[(i & p & _ & Hf & ->)|(p & Hn & _)]]; [| |done].
  - exists p. pose proof (find_if_id _ _ _ _ Hf) as Hid.
    apply find_if_split in Hf as (l1 & l2 & Hl & _).
    split_and!; [|done..]. unfold ready. rewrite Hl.
    apply elem_of_app; left. apply elem_of_app; right. left.
  - exists p. pose proof (find_if_id _ _ _ _ Hf) as Hid.
    apply find_if_split in Hf as (l1 & l2 & Hl & _).
    split_and!; [|done..]. unfold ready. rewrite Hl.
    apply elem_of_app; right. apply elem_of_app; right. left.
Qed.
End sleeper.

(** C6, as stated, fails on the position: [alarm] (id 2) and [email]
    (id 4) are both foreground and both asleep with one tick left; the tick
    readmits them in key order, so [alarm] is back in [fgProcesses] but
    [email] is the tail. *)
Lemma C6_tail_counterexample :
  reachable_fresh email_asleep
  ∧ in_ready 2 email_asleep
  ∧ simulateSleep 2 1 email_asleep = Some both_asleep
  ∧ waitQueue both_asleep !! 2 = Some (set_remainingTime 1 alarm)
  ∧ fgProcesses (ticks 1 both_asleep)
    = [shellProc; set_remainingTime 0 alarm; set_remainingTime 0 email]
  ∧ last (native alarm (ticks 1 both_asleep)) ≠ Some (set_remainingTime 0 alarm).
Proof.
  split_and!.
  - by_sleep 4 1 (enqueue email (enqueue alarm main_queue)).
    do 2 (apply reach_enqueue; [|compute_done]).
    apply main_queue_reachable; compute_done.
  - compute_done.
  - by vm_compute.
  - by vm_compute.
  - by vm_compute.
  - by vm_compute.
Qed.

(** C6 (amended): let sleep(pid, s) with s ≥ 1 move p from a ready list
    into wait, and let any calls follow that do not put pid to sleep again.
    As long as fewer than s of them are ticks, k say, p is still in wait
    with remaining time s − k.  The s-th tick removes p from wait and appends
    it, with remaining time 0, to the ready list of its class: behind
    everything that list held before that tick and behind the waiters of its
    class with a smaller id that the same tick readmits, and in front of the
    waiters of its class with a larger id that the same tick readmits; p is
    the tail when there is none of the latter. *)
Theorem C6_sleep_then_ticks (q q1 : DynamicQueue) (pid s : Z) :
  1 ≤ s → in_ready pid q → simulateSleep pid s q = Some q1 →
  ∃ p,
    p ∈ ready q ∧ id p = pid
    ∧ (∀ k : nat,
         Forall (leaves_alone pid) (replicate k WakeUpProcesses)
         ∧ tick_count (replicate k WakeUpProcesses) = k
         ∧ queue_run (replicate k WakeUpProcesses) q1 = Some (ticks k q1))
    ∧ ∀ cs q2,
        Forall (leaves_alone pid) cs → queue_run cs q1 = Some q2 →
        (Z.of_nat (tick_count cs) < s →
           waitQueue q2 !! pid
           = Some (set_remainingTime (s - Z.of_nat (tick_count cs)) p))
        ∧ (Z.of_nat (tick_count cs) = s - 1 →
           waitQueue (wakeUpProcesses q2) !! pid = None
           ∧ ∃ l1 l2,
               wait_entries (waitQueue q2)
               = l1 ++ (pid, set_remainingTime 1 p) :: l2
               ∧ Forall (λ e, e.1 < pid) l1
               ∧ Forall (λ e, pid < e.1) l2
               ∧ native p (wakeUpProcesses q2)
                 = native p q2 ++ same_class p (woken_of l1)
                   ++ set_remainingTime 0 p :: same_class p (woken_of l2)
               ∧ (same_class p (woken_of l2) = [] →
                  last (native p (wakeUpProcesses q2))
                  = Some (set_remainingTime 0 p))).
Proof.
  intros Hs Hr Hsleep.
  destruct (simulateSleep_ready_wait _ _ _ _ Hr Hsleep) as (p & Hin & Hid & Hw).
  assert (waitQueue q1 !! pid = Some (set_remainingTime s p)) as Hq1
      by (rewrite Hw; apply lookup_insert_eq).
  exists p. split_and!; [done..| |].
  - intros k. split_and!.
    + apply Forall_replicate. exact I.
    + apply tick_count_replicate.
    + apply queue_run_ticks.
  - intros cs q2 Hcs Hrun.
    pose proof (sleeper_interleaved pid s p cs q1 q2 Hcs Hq1 Hrun) as Hdown.
    split; [done|]. intros Hk.
    destruct (sleeper_goes_home q2 pid p)
      as (Hgone & l1 & l2 & Hl & _ & H1 & H2 & Hn).
    { rewrite Hdown by lia. do 2 f_equal. lia. }
    split; [done|]. exists l1, l2. split_and!; [done..|].
    intros Hnone. rewrite Hn, Hnone, app_assoc. apply last_snoc.
Qed.

Lemma C6_sleep_then_ticks_witness :
  1 ≤ 1 ∧ in_ready 2 email_asleep
  ∧ simulateSleep 2 1 email_asleep = Some both_asleep
  ∧ ∃ p, p ∈ ready email_asleep ∧ id p = 2
         ∧ waitQueue both_asleep !! 2 = Some (set_remainingTime 1 p)
         ∧ waitQueue (wakeUpProcesses both_asleep) !! 2 = None.
Proof.
  assert (1 ≤ 1) as H1 by lia.
  assert (in_ready 2 email_asleep) as H2 by compute_done.
  assert (simulateSleep 2 1 email_asleep = Some both_asleep) as H3 by (by vm_compute).
  split_and!; [exact H1|exact H2|exact H3|].
  destruct (C6_sleep_then_ticks email_asleep both_asleep 2 1 H1 H2 H3)
    as (p & Hin & Hid & _ & Hcs).
  destruct (Hcs [] both_asleep (Forall_nil_2 _) eq_refl) as [Hdown Hhome].
  exists p. split_and!; [exact Hin|exact Hid| |].
  - apply Hdown. simpl. lia.
  - apply Hhome. reflexivity.
Defined.

(** ** C7: enqueue, sleep and as many ticks *)

Section round_trip.
Implicit Types (q : DynamicQueue) (p : Process) (pid s : Z) (n : nat).

Lemma dq_eta q :
  q = mkDynamicQueue (fgProcesses q) (bgProcesses q) (waitQueue q)
        (processCount q) (bgCount q).
Proof. by destruct q. Qed.













End round_trip.




(** ** The reference scenarios (shell interval 5, monitor interval 10) *)

(** Bootstrap: the snapshot of the queue [main] builds. *)
Example scenario_bootstrap :
  cout (printQueue (mkWorld main_queue "")).2
  = "Running: [1B]
---------------------------
DQ: (bottom) [1B] 
P => [0F] (top)
---------------------------
WQ: 
...
".
Proof. by vm_compute. Qed.

(** First shell iteration: process 2 is created foreground and put to sleep
    for ten ticks at once. *)
Example scenario_first_iteration :
  queue_run (take 4 (shellProcess 5)) main_queue = Some alarm_asleep.
Proof. by vm_compute. Qed.

(** Second shell iteration: process 3 joins the background list. *)
Example scenario_second_iteration :
  queue_run (take 7 (shellProcess 5)) main_queue = Some two_shell_rounds.
Proof. by vm_compute. Qed.

(** One monitor round is one tick, whatever the interval. *)
Example scenario_monitor_round :
  queue_run (monitorProcess 10 1) alarm_asleep
  = Some (mkDynamicQueue [shellProc] [monitorProc]
            {[ 2 := set_remainingTime 9 alarm ]} 3 1).
Proof. by vm_compute. Qed.

(** After ten monitor rounds process 2 is the tail of the foreground list. *)
Example scenario_ten_rounds :
  queue_run (monitorProcess 10 10) alarm_asleep
  = Some (mkDynamicQueue [shellProc; set_remainingTime 0 alarm] [monitorProc] ∅ 3 1).
Proof. by vm_compute. Qed.

(** A sleep of zero seconds: the next tick readmits the process. *)
Example scenario_zero_sleep :
  wakeUpProcesses zero_slept
  = mkDynamicQueue [shellProc; set_remainingTime (-1) alarm] [monitorProc] ∅ 3 1.
Proof. by vm_compute. Qed.

(** ** Further instances on concrete queues *)

Lemma C4_tick_wake_witness :
  waitQueue both_asleep !! 2 = Some (set_remainingTime 1 alarm)
  ∧ remainingTime (set_remainingTime 1 alarm) ≠ INT_MIN
  ∧ waitQueue (wakeUpProcesses both_asleep) !! 2 = None.
Proof.
  assert (waitQueue both_asleep !! 2 = Some (set_remainingTime 1 alarm)) as H
      by (by vm_compute).
  assert (remainingTime (set_remainingTime 1 alarm) ≠ INT_MIN) as Hmin
      by (by vm_compute).
  split_and!; [exact H|exact Hmin|].
  destruct (C4_tick_wake both_asleep) as (_ & _ & _ & _ & _ & _ & Hk & _).
  exact (Hk 2 (set_remainingTime 1 alarm) H Hmin).
Defined.

Lemma C5_shell_agent_witness :
  INT_MIN ≤ 2 * 5 ≤ INT_MAX
  ∧ slept (shellProcess 5) = [(2, 2 * 5); (5, 2 * 5)]
  ∧ shellProcess 5 !! 1%nat = Some (SimulateSleep 2 10)
  ∧ ∃ p, shellProcess 5 !! 0%nat = Some (Enqueue p) ∧ id p = 2.
Proof.
  assert (shellProcess 5 !! 1%nat = Some (SimulateSleep 2 10)) as H
      by (by vm_compute).
  assert (INT_MIN ≤ 2 * 5 ≤ INT_MAX) as Hint by (unfold INT_MIN, INT_MAX; lia).
  destruct (C5_shell_agent 5 Hint) as (_ & _ & _ & Hs & Hn & _).
  split; [exact Hint|]. split; [exact Hs|]. split; [exact H|].
  exact (Hn 0%nat 2 10 H).
Defined.

Lemma C9_print_snapshot_witness :
  (2, set_remainingTime 10 alarm) ∈ wait_entries (waitQueue alarm_asleep).
Proof.
  destruct (C9_print_snapshot (mkWorld alarm_asleep "")) as (_ & _ & _ & Hin).
  apply Hin. by vm_compute.
Defined.

(** * Further properties of the code *)

(** ** The tokenizer of parse *)

Section tokens.
Implicit Types (s ss t w r : string) (c : Ascii.ascii) (ts : list string).

Lemma all_chars_app P s t : all_chars P (s +:+ t) = all_chars P s && all_chars P t.
Proof.
  induction s as [|c s IH]; [done|].
  rewrite string_app_cons. simpl. rewrite IH. by rewrite andb_assoc.
Qed.

Lemma keep_chars_app P s t : keep_chars P (s +:+ t) = keep_chars P s +:+ keep_chars P t.
Proof.
  induction s as [|c s IH]; [done|].
  rewrite string_app_cons. simpl. rewrite IH. by destruct (P c).
Qed.

Lemma keep_chars_all P s : all_chars P s → keep_chars P s = s.
Proof.
  induction s as [|c s IH]; [done|]. simpl.
  intros [Hc Hs]%andb_True. destruct (P c); [|done]. by rewrite IH.
Qed.

Lemma length_app_string s t :
  String.length (s +:+ t) = (String.length s + String.length t)%nat.
Proof. induction s as [|c s IH]; [done|]. rewrite string_app_cons. simpl. lia. Qed.

Lemma c_str_not_nul s : all_chars not_nul (c_str s).
Proof.
  induction s as [|c s IH]; [done|]. simpl.
  case_decide as Hc; [done|]. simpl. apply andb_True. split; [|done].
  unfold not_nul. by apply bool_decide_pack.
Qed.

Lemma c_str_id s : all_chars not_nul s → c_str s = s.
Proof.
  induction s as [|c s IH]; [done|]. simpl.
  intros [Hc Hs]%andb_True. apply bool_decide_unpack in Hc.
  case_decide; [done|]. by rewrite IH.
Qed.

Lemma c_str_nul s1 s2 : c_str (s1 +:+ String NUL s2) = c_str s1.
Proof.
  induction s1 as [|c s1 IH].
  - done.
  - rewrite string_app_cons. simpl. case_decide; [done|]. by rewrite IH.
Qed.

Lemma skipws_length ss : (String.length (skipws ss) ≤ String.length ss)%nat.
Proof.
  induction ss as [|c ss IH]; [done|]. cbn [skipws].
  destruct (Ascii.is_space c); cbn [String.length]; lia.
Qed.

Lemma skipws_keep ss : keep_chars not_space (skipws ss) = keep_chars not_space ss.
Proof.
  induction ss as [|c ss IH]; [done|]. cbn [skipws keep_chars].
  unfold not_space at 2. destruct (Ascii.is_space c) eqn:Hc; [done|].
  cbn [negb keep_chars]. unfold not_space at 1. by rewrite Hc.
Qed.

Lemma skipws_all_nul ss : all_chars not_nul ss → all_chars not_nul (skipws ss).
Proof.
  induction ss as [|c ss IH]; [done|]. cbn [skipws all_chars].
  intros [Hc Hs]%andb_True. destruct (Ascii.is_space c); [by apply IH|].
  cbn [all_chars]. apply andb_True. by split.
Qed.

Lemma skipws_head ss c s : skipws ss = String c s → Ascii.is_space c = false.
Proof.
  induction ss as [|c' ss IH]; [done|]. cbn [skipws].
  destruct (Ascii.is_space c') eqn:Hc'; [done|]. by intros [= <- <-].
Qed.

Lemma get_word_spec ss w r :
  get_word ss = (w, r) →
  ss = w +:+ r ∧ all_chars not_space w
  ∧ (r = "" ∨ ∃ c r', r = String c r' ∧ Ascii.is_space c).
Proof.
  revert w r. induction ss as [|c ss IH]; intros w r; cbn [get_word].
  - intros [= <- <-]. split_and!; [done..|by left].
  - destruct (Ascii.is_space c) eqn:Hc.
    + intros [= <- <-]. split_and!; [done..|]. right. exists c, ss. by rewrite Hc.
    + destruct (get_word ss) as [w' r'] eqn:Hg. intros [= <- <-].
      destruct (IH w' r' eq_refl) as (-> & Hw & Hr).
      split_and!; [done| |done]. cbn [all_chars]. unfold not_space at 1.
      by rewrite Hc.
Qed.

(** What a successful extraction delivers. *)
Lemma extract_Some ss w r :
  extract ss = Some (w, r) →
  skipws ss = w +:+ r ∧ w ≠ "" ∧ all_chars not_space w
  ∧ (r = "" ∨ ∃ c r', r = String c r' ∧ Ascii.is_space c)
  ∧ (String.length r < String.length ss)%nat.
Proof.
  unfold extract. pose proof (skipws_length ss) as Hlen.
  destruct (skipws ss) as [|c s] eqn:Hs; [done|]. intros [= Hg].
  pose proof (skipws_head _ _ _ Hs) as Hc.
  destruct (get_word_spec (String c s) w r Hg) as (Happ & Hw & Hr).
  assert (w ≠ "") as Hne.
  { intros ->. rewrite Hc in Hg. by destruct (get_word s). }
  split_and!; [done..|].
  rewrite Happ, length_app_string in Hlen.
  destruct w; [done|]. cbn [String.length] in Hlen. lia.
Qed.

Lemma extract_None ss : extract ss = None ↔ skipws ss = "".
Proof. unfold extract. by destruct (skipws ss). Qed.

Lemma parse_loop_acc fuel ss ts :
  parse_loop fuel ss ts = ts ++ parse_loop fuel ss [].
Proof.
  revert ss ts. induction fuel as [|fuel IH]; intros ss ts; simpl.
  - by rewrite app_nil_r.
  - destruct (extract ss) as [[w r]|]; [|by rewrite app_nil_r].
    rewrite (IH r (ts ++ [w])), (IH r [w]). by rewrite <-app_assoc.
Qed.

(** The loop ends because the stream runs dry, never because of the bound
    on its rounds: any larger bound gives the same vector. *)
Lemma parse_loop_enough fuel ss ts :
  (String.length ss < fuel)%nat →
  parse_loop fuel ss ts = parse_loop (S (String.length ss)) ss ts.
Proof.
  revert ss ts. induction fuel as [fuel IH] using lt_wf_ind.
  intros ss ts Hlt. destruct fuel as [|fuel]; [lia|]. cbn [parse_loop].
  destruct (extract ss) as [[w r]|] eqn:He; [|done].
  apply extract_Some in He as (_ & _ & _ & _ & Hr).
  rewrite (IH fuel) by lia.
  symmetry. apply IH; lia.
Qed.

Lemma stream_tokens_unfold ss :
  stream_tokens ss
  = match extract ss with
    | Some (w, r) => w :: stream_tokens r
    | None => []
    end.
Proof.
  unfold stream_tokens. simpl.
  destruct (extract ss) as [[w r]|] eqn:He; [|done].
  apply extract_Some in He as (_ & _ & _ & _ & Hr).
  rewrite parse_loop_acc. simpl. f_equal.
  apply parse_loop_enough. lia.
Qed.

Lemma tokenize_stream command : tokenize command = stream_tokens (c_str command).
Proof. reflexivity. Qed.

(** Induction over the rounds of the loop. *)
Lemma stream_tokens_ind (P : string → list string → Prop) :
  (∀ ss, extract ss = None → P ss []) →
  (∀ ss w r, extract ss = Some (w, r) → P r (stream_tokens r) →
             P ss (w :: stream_tokens r)) →
  ∀ ss, P ss (stream_tokens ss).
Proof.
  intros Hnone Hsome ss.
  remember (String.length ss) as n eqn:Hn.
  revert ss Hn. induction n as [n IH] using lt_wf_ind. intros ss ->.
  rewrite stream_tokens_unfold.
  destruct (extract ss) as [[w r]|] eqn:He; [|by apply Hnone].
  apply Hsome; [done|].
  apply extract_Some in He as (_ & _ & _ & _ & Hr).
  by apply (IH (String.length r)).
Qed.

Lemma stream_tokens_space c ss :
  Ascii.is_space c → stream_tokens (String c ss) = stream_tokens ss.
Proof.
  intros Hc. rewrite (stream_tokens_unfold (String c ss)), (stream_tokens_unfold ss).
  unfold extract. cbn [skipws]. by destruct (Ascii.is_space c).
Qed.

Lemma get_word_word t c rest :
  all_chars not_space t → Ascii.is_space c →
  get_word (t +:+ String c rest) = (t, String c rest).
Proof.
  intros Ht Hc. induction t as [|a t IH].
  - rewrite string_app_empty_l. cbn [get_word]. by destruct (Ascii.is_space c).
  - rewrite string_app_cons. cbn [get_word all_chars] in *.
    apply andb_True in Ht as [Ha Ht]. unfold not_space in Ha.
    destruct (Ascii.is_space a); [done|]. by rewrite IH.
Qed.

Lemma extract_word t c rest :
  t ≠ "" → all_chars not_space t → Ascii.is_space c →
  extract (t +:+ String c rest) = Some (t, String c rest).
Proof.
  intros Hne Ht Hc. unfold extract.
  destruct t as [|a t]; [done|]. rewrite string_app_cons.
  cbn [all_chars] in Ht. apply andb_True in Ht as [Ha Ht].
  cbn [skipws]. unfold not_space in Ha.
  destruct (Ascii.is_space a) eqn:Hsp; [done|].
  rewrite <-string_app_cons. apply f_equal, get_word_word; [|done].
  cbn [all_chars]. apply andb_True. split; [|done]. unfold not_space. by rewrite Hsp.
Qed.

Lemma spaced_cons t ts : spaced (t :: ts) = t +:+ String SPACE (spaced ts).
Proof. unfold spaced. cbn [fmap list_fmap glue]. by rewrite string_app_assoc. Qed.

Lemma spaced_not_nul ts : Forall is_word ts → all_chars not_nul (spaced ts).
Proof.
  induction 1 as [|t ts (_ & _ & Ht) _ IH]; [done|].
  rewrite spaced_cons, all_chars_app. apply andb_True. split; [done|].
  cbn [all_chars]. apply andb_True. by split.
Qed.

Lemma stream_tokens_spaced ts : Forall is_word ts → stream_tokens (spaced ts) = ts.
Proof.
  induction 1 as [|t ts (Hne & Hsp & _) _ IH]; [done|].
  rewrite spaced_cons, stream_tokens_unfold, extract_word by done.
  by rewrite stream_tokens_space, IH.
Qed.

Lemma stream_tokens_words ss :
  all_chars not_nul ss → Forall is_word (stream_tokens ss).
Proof.
  apply (stream_tokens_ind (λ ss ts, all_chars not_nul ss → Forall is_word ts)).
  - by constructor.
  - clear ss. intros ss w r He IH Hss.
    apply extract_Some in He as (Hsk & Hne & Hw & _).
    apply skipws_all_nul in Hss. rewrite Hsk, all_chars_app in Hss.
    apply andb_True in Hss as [Hwn Hrn].
    constructor; [done|]. by apply IH.
Qed.

Lemma stream_tokens_glue ss : glue (stream_tokens ss) = keep_chars not_space ss.
Proof.
  apply (stream_tokens_ind (λ ss ts, glue ts = keep_chars not_space ss)).
  - clear ss. intros ss He. apply extract_None in He.
    by rewrite <-skipws_keep, He.
  - clear ss. intros ss w r He IH.
    apply extract_Some in He as (Hsk & _ & Hw & _).
    rewrite <-skipws_keep, Hsk, keep_chars_app, keep_chars_all by done.
    cbn [glue]. by rewrite IH.
Qed.

Lemma stream_tokens_nil ss : stream_tokens ss = [] ↔ all_chars Ascii.is_space ss.
Proof.
  rewrite stream_tokens_unfold. split.
  - destruct (extract ss) as [[w r]|] eqn:He; [done|]. intros _.
    apply extract_None in He. induction ss as [|c ss IH]; [done|].
    cbn [skipws all_chars] in *. destruct (Ascii.is_space c); [by apply IH|done].
  - intros Hall. assert (skipws ss = "") as Hs.
    { induction ss as [|c ss IH]; [done|]. cbn [skipws all_chars] in *.
      apply andb_True in Hall as [Hc Hall].
      destruct (Ascii.is_space c); [by apply IH|done]. }
    apply extract_None in Hs. by rewrite Hs.
Qed.

Lemma mapM_copy ts :
  Forall (λ t, all_chars not_nul t) ts →
  mapM (λ token, strcpy_s (String.length token + 1) token) ts = Some ts.
Proof.
  intros Hts. apply mapM_Some. induction Hts as [|t ts Ht _ IH]; constructor; [|done].
  unfold strcpy_s. rewrite c_str_id by done. rewrite decide_True by lia. done.
Qed.

Lemma exec_loop_terminated ts junk (v : world) :
  exec_loop ((Some <$> ts) ++ None :: junk) v
  = Some (mkWorld (dq v) (cout v +:+ spaced (c_str <$> ts))).
Proof.
  revert v. induction ts as [|t ts IH]; intros v; cbn [fmap list_fmap app exec_loop].
  - unfold spaced. cbn [fmap list_fmap glue]. rewrite string_app_empty_r. by destruct v.
  - rewrite IH. unfold mbind, io_bind. rewrite !write_eq. cbn [fst snd dq cout].
    rewrite spaced_cons. unfold render, insertion_string.
    by rewrite !string_app_assoc.
Qed.

Lemma exec_loop_unterminated ts (v : world) : exec_loop (Some <$> ts) v = None.
Proof. revert v. induction ts as [|t ts IH]; intros v; [done|]. apply IH. Qed.
End tokens.

(** ** More on simulateSleep, and the processes a queue holds *)

Section more_sleep.
Implicit Types (q : DynamicQueue) (p : Process) (pid s k : Z) (l : list Process).

Lemma find_if_middle pid l1 p l2 :
  Forall (λ x, id x ≠ pid) l1 → id p = pid →
  find_if pid (l1 ++ p :: l2) = Some (length l1, p).
Proof.
  intros Hl1 Hp. apply list_find_Some. split_and!.
  - by apply list_lookup_middle.
  - done.
  - intros j y Hj Hlt. rewrite lookup_app_l in Hj by done.
    by apply (Forall_lookup_1 _ _ _ _ Hl1 Hj).
Qed.

Lemma simulateSleep_None pid s q : simulateSleep pid s q = None ↔ ¬ held pid q.
Proof.
  split.
  - intros Hnone [Hr|[p Hw]].
    + destruct (simulateSleep_ready pid s q Hr) as [q' Hq']. congruence.
    + destruct (decide (in_ready pid q)) as [Hr|Hr].
      * destruct (simulateSleep_ready pid s q Hr) as [q' Hq']. congruence.
      * rewrite simulateSleep_not_ready, Hw in Hnone; done.
  - intros Hn. rewrite simulateSleep_not_ready by (intros ?; apply Hn; by left).
    destruct (waitQueue q !! pid) eqn:Hw; [|done].
    destruct Hn. right. by eexists.
Qed.
End more_sleep.

Section conservation.
Implicit Types (q : DynamicQueue) (p : Process) (pid s k : Z) (m : gmap Z Process).

Lemma wait_values_insert m k p :
  m !! k = None → wait_values (<[k := p]> m) ≡ₚ p :: wait_values m.
Proof.
  intros Hk. unfold wait_values.
  by rewrite !wait_entries_perm, map_to_list_insert.
Qed.

Lemma wait_values_delete m k p :
  m !! k = Some p → wait_values m ≡ₚ p :: wait_values (delete k m).
Proof.
  intros Hk. unfold wait_values.
  by rewrite !wait_entries_perm, <-(map_to_list_delete m k p Hk).
Qed.

Lemma wait_values_overwrite m k p p' :
  m !! k = Some p → wait_values (<[k := p']> m) ≡ₚ p' :: wait_values (delete k m).
Proof.
  intros Hk. rewrite <-insert_delete_eq.
  apply wait_values_insert, lookup_delete_eq.
Qed.

Lemma forget_set s p : forget (set_remainingTime s p) = forget p.
Proof. reflexivity. Qed.

Lemma members_enqueue q p : members (enqueue p q) ≡ₚ forget p :: members q.
Proof.
  unfold members.
  assert (waitQueue (enqueue p q) = waitQueue q) as ->
      by (unfold enqueue; by destruct (isForeground p)).
  by rewrite (ready_enqueue q p).
Qed.

(** A successful sleep on a pid in a ready list: the process taken out of
    its ready list, and the two ready lists before and after. *)
Lemma simulateSleep_moves pid s q q' :
  in_ready pid q → simulateSleep pid s q = Some q' →
  ∃ p, id p = pid ∧ ready q ≡ₚ p :: ready q'
       ∧ waitQueue q' = <[pid := set_remainingTime s p]> (waitQueue q).
Proof.
  intros Hr Hs. apply simulateSleep_Some in Hs
    as [(i & p & Hf & ->)|[(i & p & _ & Hf & ->)|(p & Hn & _)]]; [| |done].
  - pose proof (find_if_id _ _ _ _ Hf) as <-. exists p. split_and!; [done| |done].
    by apply ready_delete_fg.
  - pose proof (find_if_id _ _ _ _ Hf) as <-. exists p. split_and!; [done| |done].
    by apply ready_delete_bg.
Qed.

Lemma members_sleep pid s q q' :
  in_ready pid q → waitQueue q !! pid = None →
  simulateSleep pid s q = Some q' → members q' ≡ₚ members q.
Proof.
  intros Hr Hw Hs.
  destruct (simulateSleep_moves _ _ _ _ Hr Hs) as (p & Hid & Hp & Hw').
  unfold members. rewrite Hw', Hp, (wait_values_insert _ _ _ Hw).
  rewrite <-Permutation_middle, !fmap_cons. by rewrite forget_set.
Qed.

Lemma members_sleep_overwrite pid s q q' old :
  in_ready pid q → waitQueue q !! pid = Some old →
  simulateSleep pid s q = Some q' → members q ≡ₚ forget old :: members q'.
Proof.
  intros Hr Hw Hs.
  destruct (simulateSleep_moves _ _ _ _ Hr Hs) as (p & Hid & Hp & Hw').
  unfold members.
  rewrite Hw', Hp, (wait_values_overwrite _ _ _ _ Hw), (wait_values_delete _ _ _ Hw).
  rewrite !fmap_app, !fmap_cons, forget_set, <-!Permutation_middle.
  first [done|apply perm_swap].
Qed.

Lemma members_wake_step q k p :
  waitQueue q !! k = Some p → members (wake_step q (k, p)) ≡ₚ members q.
Proof.
  intros Hk. unfold members at 2. rewrite (wait_values_delete _ _ _ Hk).
  destruct (decide (expired p)) as [He|He].
  - assert (∀ q', ready q' ≡ₚ tick p :: ready q →
                  waitQueue q' = delete k (waitQueue q) →
                  members q' ≡ₚ forget <$> (ready q ++ p :: wait_values (delete k (waitQueue q))))
      as Hmove.
    { intros q' Hp Hw. unfold members. rewrite Hw, Hp.
      by rewrite <-Permutation_middle, !fmap_cons. }
    destruct (isForeground p) eqn:Hf.
    + rewrite wake_step_expired_fg by done. apply Hmove; [|done].
      unfold ready. simpl. rewrite <-app_assoc. simpl.
      by rewrite <-Permutation_middle.
    + rewrite wake_step_expired_bg by done. apply Hmove; [|done].
      unfold ready. simpl. by rewrite app_assoc, <-Permutation_cons_append.
  - rewrite wake_step_staying by done. unfold members, ready. simpl.
    rewrite (wait_values_overwrite _ _ _ _ Hk).
    by rewrite <-!Permutation_middle, !fmap_cons.
Qed.

Lemma members_wake q : members (wakeUpProcesses q) ≡ₚ members q.
Proof.
  apply (wake_invariant (λ q', members q' ≡ₚ members q)); [|done].
  intros q' k p Hq' Hk. by rewrite members_wake_step.
Qed.
End conservation.

Section order.
Implicit Types (q : DynamicQueue) (p : Process) (pid s : Z).

Lemma queue_call_prefix c q q' :
  (∀ pid s, c ≠ SimulateSleep pid s) → queue_call c q = Some q' →
  fgProcesses q `prefix_of` fgProcesses q' ∧ bgProcesses q `prefix_of` bgProcesses q'.
Proof.
  intros Hc Hq. destruct c as [p|pid s| | |n]; simpl in Hq; simplify_eq.
  - unfold enqueue. destruct (isForeground p); simpl; split;
      first [done|by apply prefix_app_r].
  - by destruct (Hc pid s).
  - rewrite wake_fg, wake_bg. split; by apply prefix_app_r.
  - done.
  - done.
Qed.

Lemma queue_run_prefix cs q q' :
  slept cs = [] → queue_run cs q = Some q' →
  fgProcesses q `prefix_of` fgProcesses q' ∧ bgProcesses q `prefix_of` bgProcesses q'.
Proof.
  revert q. induction cs as [|c cs IH]; intros q Hcs Hq; simpl in Hq.
  - by simplify_eq.
  - destruct (queue_call c q) as [q1|] eqn:Hc; [|done]. simpl in Hq.
    assert (∀ pid s, c ≠ SimulateSleep pid s) as Hne.
    { intros pid s ->. done. }
    assert (slept cs = []) as Hcs' by (by destruct c).
    destruct (queue_call_prefix c q q1 Hne Hc) as [Hf Hb].
    destruct (IH q1 Hcs' Hq) as [Hf' Hb'].
    split; by etrans.
Qed.

Lemma simulateSleep_sublist pid s q q' :
  simulateSleep pid s q = Some q' →
  fgProcesses q' `sublist_of` fgProcesses q ∧ bgProcesses q' `sublist_of` bgProcesses q.
Proof.
  intros Hs. apply simulateSleep_Some in Hs
    as [(i & p & Hf & ->)|[(i & p & _ & Hf & ->)|(p & _ & _ & ->)]]; simpl;
    split; try done; apply sublist_delete.
Qed.
End order.

Section drain.
Implicit Types (q : DynamicQueue) (p : Process) (n : nat).

Lemma ticks_succ_r n q : ticks (S n) q = ticks n (wakeUpProcesses q).
Proof. unfold ticks. apply Nat.iter_succ_r. Qed.

Lemma wake_bound (b : Z) q :
  map_Forall (λ _ p, INT_MIN < remainingTime p ≤ b) (waitQueue q) →
  map_Forall (λ _ p, INT_MIN < remainingTime p ≤ b - 1)
    (waitQueue (wakeUpProcesses q)).
Proof.
  intros Hq k p'. rewrite wake_wait, lookup_omap_Some.
  intros (p & Hstay & Hk). unfold stay in Hstay. case_decide as He; [done|].
  simplify_eq. specialize (Hq k p Hk). simpl in Hq.
  unfold expired in He. unfold tick. simpl.
  rewrite int_dec_pred in * by lia. int_lia.
Qed.

Lemma wake_drain q :
  map_Forall (λ _ p, INT_MIN < remainingTime p ≤ 1) (waitQueue q) →
  waitQueue (wakeUpProcesses q) = ∅.
Proof.
  intros Hq. rewrite wake_wait. apply map_eq. intros k.
  rewrite lookup_omap, lookup_empty.
  destruct (waitQueue q !! k) as [p|] eqn:Hk; [|done]. simpl.
  unfold stay. rewrite decide_True; [done|].
  specialize (Hq k p Hk). simpl in Hq. apply int_dec_le_0. lia.
Qed.

Lemma ticks_drain n q :
  (0 < n)%nat →
  map_Forall (λ _ p, INT_MIN < remainingTime p ≤ Z.of_nat n) (waitQueue q) →
  waitQueue (ticks n q) = ∅.
Proof.
  revert q. induction n as [|n IH]; intros q Hn Hq; [lia|].
  rewrite ticks_succ_r. destruct n as [|n].
  - by apply wake_drain.
  - apply IH; [lia|]. apply wake_bound in Hq.
    eapply map_Forall_impl; [done|]. intros k p Hp. simpl in Hp. lia.
Qed.

(** The smallest [int] is the one remaining time a tick cannot lower: the
    waiter stays, with the largest [int]. *)
Lemma wake_smallest_int q k p :
  waitQueue q !! k = Some p → remainingTime p = INT_MIN →
  waitQueue (wakeUpProcesses q) !! k = Some (set_remainingTime INT_MAX p).
Proof.
  intros Hk Hp. rewrite wake_wait, lookup_omap, Hk. simpl.
  unfold stay, tick. rewrite decide_False.
  - by rewrite Hp.
  - unfold expired. rewrite Hp. by vm_compute.
Qed.
End drain.

(** ** Traces and schedules *)

Section schedules.
Implicit Types (q : DynamicQueue) (p : Process) (pid s k : Z) (cs : list call).

Lemma queue_run_processCount cs q q' :
  queue_run cs q = Some q' →
  processCount q' = processCount q + Z.of_nat (length (created cs)).
Proof.
  revert q. induction cs as [|c cs IH]; intros q Hq; simpl in Hq.
  - simplify_eq. simpl. lia.
  - destruct (queue_call c q) as [q1|] eqn:Hc; [|done]. simpl in Hq.
    rewrite (IH q1 Hq).
    destruct c as [p|pid s| | |n]; simpl in Hc; simplify_eq.
    + change (created (Enqueue p :: cs)) with (p :: created cs).
      rewrite length_cons, Nat2Z.inj_succ.
      unfold enqueue. destruct (isForeground p); cbn [processCount]; lia.
    + apply simulateSleep_Some in Hc
        as [(i & p & _ & ->)|[(i & p & _ & _ & ->)|(p & _ & _ & ->)]]; done.
    + by rewrite wake_processCount.
    + done.
    + done.
Qed.

Lemma held_members q pid :
  map_Forall (λ k p, id p = k) (waitQueue q) →
  held pid q ↔ pid ∈ id <$> members q.
Proof.
  intros Hkey.
  assert (id <$> members q = id <$> (ready q ++ wait_values (waitQueue q))) as ->.
  { unfold members. rewrite <-list_fmap_compose. by apply list_fmap_ext. }
  unfold held, in_ready, wait_values.
  rewrite fmap_app, elem_of_app. apply or_iff_compat_l.
  rewrite list_elem_of_fmap. split.
  - intros [p Hp]. exists p. split; [by rewrite (Hkey pid p Hp)|].
    apply list_elem_of_fmap. exists (pid, p). split; [done|].
    by apply elem_of_wait_entries.
  - intros (p & -> & Hin). apply list_elem_of_fmap in Hin as ([k p'] & -> & Hin).
    apply elem_of_wait_entries in Hin. simpl. rewrite (Hkey k p' Hin). by eexists.
Qed.

Lemma held_enqueue q p pid : held pid (enqueue p q) ↔ pid = id p ∨ held pid q.
Proof.
  unfold held. rewrite (in_ready_perm _ _ _ (ready_enqueue q p)).
  assert (waitQueue (enqueue p q) = waitQueue q) as ->
      by (unfold enqueue; by destruct (isForeground p)).
  tauto.
Qed.

Lemma held_sleep pid s q q' x :
  in_ready pid q → simulateSleep pid s q = Some q' →
  (held x q' ↔ held x q) ∧ (x ≠ pid → in_ready x q → in_ready x q').
Proof.
  intros Hr Hs.
  destruct (simulateSleep_moves _ _ _ _ Hr Hs) as (p & Hid & Hp & Hw).
  pose proof (in_ready_perm q' q p) as Hrq. unfold held.
  assert (∀ k, in_ready k q ↔ k = id p ∨ in_ready k q') as Hr'.
  { intros k. unfold in_ready. by rewrite Hp, fmap_cons, elem_of_cons. }
  split.
  - rewrite Hw, (Hr' x), Hid. destruct (decide (x = pid)) as [->|Hne].
    + rewrite lookup_insert_eq. split; [by intros _; left; left|].
      intros _. right. by eexists.
    + rewrite lookup_insert_ne by done. tauto.
  - intros Hne [?|?]%Hr'; [congruence|done].
Qed.

Lemma held_wake q x :
  ids_ok q → held x (wakeUpProcesses q) ↔ held x q.
Proof.
  intros Hok. pose proof (ids_ok_wake q Hok) as (_ & Hkey' & _).
  destruct Hok as (_ & Hkey & _).
  by rewrite !held_members, members_wake.
Qed.

Lemma in_ready_wake q x : in_ready x q → in_ready x (wakeUpProcesses q).
Proof.
  unfold in_ready, ready. rewrite wake_fg, wake_bg, !fmap_app, !elem_of_app. tauto.
Qed.

Lemma counts_ok_reachable_fresh q : reachable_fresh q → counts_ok q.
Proof.
  induction 1 as [|q p H IH Hg|q pid s q' H IH Hr Hs|q H IH].
  - apply counts_ok_empty.
  - by apply counts_ok_enqueue.
  - eapply counts_ok_sleep; [|done..]. by apply ids_ok_reachable.
  - by apply counts_ok_wake.
Qed.

(** A trace that respects the ids runs through, stays among the states
    reachable with fresh ids, and holds in the end what it held at the start
    and what it enqueued. *)
Lemma well_used_run cs known awake q :
  reachable_fresh q →
  (∀ pid, held pid q ↔ pid ∈ known) →
  (∀ pid, pid ∈ awake → in_ready pid q) →
  well_used known awake cs →
  ∃ q', queue_run cs q = Some q' ∧ reachable_fresh q'
        ∧ ∀ pid, held pid q' ↔ pid ∈ (id <$> created cs) ++ known.
Proof.
  revert known awake q.
  induction cs as [|c cs IH]; intros known awake q Hq Hknown Hawake Hcs.
  - exists q. by split_and!.
  - destruct c as [p|pid s| | |n]; cbn [well_used] in Hcs.
    + destruct Hcs as [Hnew Hcs].
      destruct (IH (id p :: known) (id p :: awake) (enqueue p q))
        as (q' & Hrun & Hq' & Hheld); [| | |done|].
      * apply reach_enqueue; [done|]. by rewrite Hknown.
      * intros pid. by rewrite held_enqueue, Hknown, elem_of_cons.
      * intros pid [->|Hin]%elem_of_cons;
          apply (in_ready_perm _ _ _ (ready_enqueue q p)); [by left|right; auto].
      * exists q'. split_and!; [done..|]. intros pid. rewrite Hheld.
        unfold created. cbn [omap list_omap fmap list_fmap].
        rewrite !elem_of_app, !elem_of_cons. fold (created cs). tauto.
    + destruct Hcs as [Hin Hcs].
      destruct (simulateSleep_ready pid s q (Hawake pid Hin)) as [q1 Hq1].
      destruct (IH known (filter (λ k, k ≠ pid) awake) q1)
        as (q' & Hrun & Hq' & Hheld); [| | |done|].
      * by eapply reach_sleep; [|apply Hawake|].
      * intros x. rewrite <-Hknown.
        by apply (held_sleep pid s q q1 x (Hawake pid Hin) Hq1).
      * intros x [Hne Hx]%list_elem_of_filter.
        apply (held_sleep pid s q q1 x (Hawake pid Hin) Hq1); auto.
      * exists q'. split_and!; [|done..]. simpl. by rewrite Hq1.
    + destruct (IH known awake (wakeUpProcesses q))
        as (q' & Hrun & Hq' & Hheld); [| | |done|].
      * by apply reach_wake.
      * intros x. rewrite <-Hknown. apply held_wake. by apply ids_ok_reachable.
      * intros x Hx. by apply in_ready_wake, Hawake.
      * by exists q'.
    + destruct (IH known awake q) as (q' & Hrun & Hq' & Hheld); [done..|].
      by exists q'.
    + destruct (IH known awake q) as (q' & Hrun & Hq' & Hheld); [done..|].
      by exists q'.
Qed.

Lemma well_used_interleave known awake (l1 l2 cs : list call) :
  interleave l1 l2 cs → Forall monitor_call l2 →
  well_used known awake l1 → well_used known awake cs.
Proof.
  intros Hi. revert known awake.
  induction Hi as [|x l1 l2 l Hi IH|x l1 l2 l Hi IH]; intros known awake Hm Hw.
  - done.
  - destruct x; cbn [well_used] in Hw |- *;
      first [destruct Hw as [H1 H2]; split; [done|by apply IH]|by apply IH].
  - apply Forall_cons in Hm as [Hx Hm].
    destruct x; cbn [well_used monitor_call] in Hx |- *;
      first [done|by apply IH].
Qed.

Lemma created_interleave (l1 l2 cs : list call) :
  interleave l1 l2 cs → Forall monitor_call l2 → created cs = created l1.
Proof.
  induction 1 as [|x l1 l2 l Hi IH|x l1 l2 l Hi IH]; intros Hm.
  - done.
  - unfold created in *. cbn [omap list_omap]. by rewrite IH.
  - apply Forall_cons in Hm as [Hx Hm]. unfold created in *.
    destruct x; cbn [omap list_omap monitor_call] in *; by auto.
Qed.

Lemma monitorProcess_calls interval n :
  Forall monitor_call (monitorProcess interval n).
Proof. induction n as [|n IH]; simpl; by repeat constructor. Qed.

Lemma shellProcess_well_used interval :
  well_used [0; 1] [0; 1] (shellProcess interval).
Proof.
  rewrite shellProcess_calls. cbn [well_used]. 
  repeat split; compute_done.
Qed.
End schedules.

(** ** The monitor and the labels *)

Section monitor.
Implicit Types (q : DynamicQueue) (n : nat) (w : world).

Lemma run_app cs1 cs2 w : run (cs1 ++ cs2) w = run cs1 w ≫= run cs2.
Proof.
  revert w. induction cs1 as [|c cs1 IH]; intros w; [done|]. simpl.
  destruct (run_call c w); simpl; [apply IH|done].
Qed.

Lemma monitor_round interval w :
  run [SleepFor interval; WakeUpProcesses; PrintQueue] w
  = Some (mkWorld (wakeUpProcesses (dq w))
            (cout w +:+ snapshot (wakeUpProcesses (dq w)))).
Proof. simpl. by rewrite printQueue_emits. Qed.

Lemma run_monitorProcess interval n w :
  run (monitorProcess interval n) w
  = Some (mkWorld (ticks n (dq w))
            (cout w +:+ glue ((λ k, snapshot (ticks k (dq w))) <$> seq 1 n))).
Proof.
  revert w. induction n as [|n IH]; intros w.
  - simpl. rewrite string_app_empty_r. by destruct w.
  - cbn [monitorProcess]. rewrite run_app, monitor_round. cbn [mbind option_bind].
    rewrite IH. cbn [dq cout]. rewrite <-ticks_succ_r. do 2 f_equal.
    rewrite string_app_assoc. f_equal.
    cbn [seq fmap list_fmap glue]. f_equal.
    rewrite <-(fmap_S_seq 1 n), <-list_fmap_compose. f_equal.
    apply list_fmap_ext. intros i k Hk. unfold compose. by rewrite ticks_succ_r.
Qed.
End monitor.

Section labels.
Implicit Types (s t : string) (c : Ascii.ascii) (p : Process).

Lemma string_snoc_inj s t c c' :
  s +:+ String c "" = t +:+ String c' "" → s = t ∧ c = c'.
Proof.
  revert t. induction s as [|a s IH]; intros [|b t]; rewrite ?string_app_cons;
    rewrite ?string_app_empty_l.
  - by intros [= ->].
  - intros [= -> H]. by destruct t.
  - intros [= -> H]. by destruct s.
  - intros [= -> H]. destruct (IH t H) as [-> ->]. done.
Qed.

Lemma toString_inj p p' :
  toString p = toString p' →
  id p = id p' ∧ isForeground p = isForeground p' ∧ promoted p = promoted p'.
Proof.
  rewrite !toString_label. unfold label.
  destruct (promoted p), (promoted p'), (isForeground p), (isForeground p');
    rewrite <-?string_app_assoc, ?string_app_empty_r; intros H;
    repeat (apply string_snoc_inj in H as [H ?]);
    try done; by apply (inj pretty) in H.
Qed.
End labels.

(** ** The properties *)

Section more_edges.
Implicit Types (q : DynamicQueue) (p : Process) (pid s k : Z).

Lemma elem_of_woken q k p :
  waitQueue q !! k = Some p → expired p → tick p ∈ woken q.
Proof.
  intros Hk He. unfold woken, woken_of. apply list_elem_of_fmap_2.
  apply list_elem_of_filter. split; [done|].
  apply list_elem_of_fmap. exists (k, p). split; [done|].
  by apply elem_of_wait_entries.
Qed.

Lemma elem_of_same_class p x (l : list Process) :
  x ∈ l → isForeground x = isForeground p → x ∈ same_class p l.
Proof.
  intros Hx Hc. unfold same_class.
  destruct (isForeground p); apply list_elem_of_filter; by split.
Qed.

Lemma short_sleep_returns pid s q q1 :
  INT_MIN < s ≤ 1 → in_ready pid q → simulateSleep pid s q = Some q1 →
  ∃ p, p ∈ ready q ∧ id p = pid
       ∧ waitQueue (wakeUpProcesses q1) !! pid = None
       ∧ set_remainingTime (s - 1) p ∈ native p (wakeUpProcesses q1).
Proof.
  intros Hs Hr Hsleep.
  destruct (simulateSleep_ready_wait _ _ _ _ Hr Hsleep) as (p & Hin & Hid & Hw).
  assert (waitQueue q1 !! pid = Some (set_remainingTime s p)) as Hq1
      by (rewrite Hw; apply lookup_insert_eq).
  assert (expired (set_remainingTime s p)) as He by (apply expired_set; lia).
  exists p. split_and!; [done..| |].
  - rewrite wake_wait, lookup_omap, Hq1. simpl. unfold stay. by rewrite decide_True.
  - rewrite wake_native. apply elem_of_app. right.
    apply elem_of_same_class; [|done].
    rewrite <-tick_set by lia. by apply (elem_of_woken q1 pid).
Qed.

(** At the smallest [int] the decrement wraps and the process stays. *)
Lemma smallest_sleep_stays pid q q1 :
  in_ready pid q → simulateSleep pid INT_MIN q = Some q1 →
  ∃ p, p ∈ ready q ∧ id p = pid
       ∧ waitQueue (wakeUpProcesses q1) !! pid = Some (set_remainingTime INT_MAX p).
Proof.
  intros Hr Hsleep.
  destruct (simulateSleep_ready_wait _ _ _ _ Hr Hsleep) as (p & Hin & Hid & Hw).
  exists p. split_and!; [done..|].
  rewrite (wake_smallest_int q1 pid (set_remainingTime INT_MIN p)); [done| |done].
  rewrite Hw. apply lookup_insert_eq.
Qed.

Lemma ticks_members n q : members (ticks n q) ≡ₚ members q.
Proof.
  induction n as [|n IH]; [done|]. by rewrite ticks_S, members_wake.
Qed.

Lemma interleave_nil_r {A} (l : list A) : interleave l [] l.
Proof. induction l; by constructor. Qed.

Lemma monitor_cuts_in_interleave :
  interleave (shellProcess 5) (monitorProcess 10 1) monitor_cuts_in.
Proof.
  unfold monitor_cuts_in. rewrite shellProcess_calls.
  cbn [monitorProcess drop app].
  apply interleave_left. do 3 apply interleave_right. apply interleave_nil_r.
Qed.
End more_edges.

(** X1: simulateSleep has no defined result exactly when the pid is in
    neither ready list and not in the wait map. *)
Theorem X1_sleep_undefined_iff_unknown (pid s : Z) (q : DynamicQueue) :
  simulateSleep pid s q = None ↔ ¬ held pid q.
Proof. apply simulateSleep_None. Qed.

Lemma X1_sleep_undefined_iff_unknown_witness :
  ¬ held 9 main_queue ∧ simulateSleep 9 3 main_queue = None.
Proof.
  assert (¬ held 9 main_queue) as H by compute_done.
  split; [exact H|].
  exact (proj2 (X1_sleep_undefined_iff_unknown 9 3 main_queue) H).
Defined.

(** X2: simulateSleep takes the first process with the pid, looking through
    the foreground list before the background list, and leaves every other
    process where it was: a match in [fgProcesses] wins even when
    [bgProcesses] has one too, and only a background match lowers
    [bgCount]. *)
Theorem X2_sleep_takes_first_match
    (pid s : Z) (q : DynamicQueue) (l1 l2 : list Process) (p : Process) :
  id p = pid → Forall (λ x, id x ≠ pid) l1 →
  (fgProcesses q = l1 ++ p :: l2 →
   simulateSleep pid s q
   = Some (mkDynamicQueue (l1 ++ l2) (bgProcesses q)
             (<[pid := set_remainingTime s p]> (waitQueue q))
             (processCount q) (bgCount q)))
  ∧ (Forall (λ x, id x ≠ pid) (fgProcesses q) →
     bgProcesses q = l1 ++ p :: l2 →
     simulateSleep pid s q
     = Some (mkDynamicQueue (fgProcesses q) (l1 ++ l2)
               (<[pid := set_remainingTime s p]> (waitQueue q))
               (processCount q) (bgCount q - 1))).
Proof.
  intros Hp Hl1. split.
  - intros Hfg.
    rewrite (simulateSleep_fg pid s q (length l1) p)
      by (rewrite Hfg; by apply find_if_middle).
    by rewrite Hfg, delete_middle.
  - intros Hfg Hbg.
    rewrite (simulateSleep_bg pid s q (length l1) p).
    + by rewrite Hbg, delete_middle.
    + apply find_if_None. intros (x & Hx & Hin)%list_elem_of_fmap.
      by apply (proj1 (Forall_forall _ _) Hfg x).
    + rewrite Hbg. by apply find_if_middle.
Qed.

Lemma X2_sleep_takes_first_match_witness :
  simulateSleep 2 5 two_twos
  = Some (mkDynamicQueue [shellProc] [monitorProc; alarm_bg]
            {[ 2 := set_remainingTime 5 alarm ]} 4 2).
Proof.
  assert (id alarm = 2) as H1 by reflexivity.
  assert (Forall (λ x, id x ≠ 2) [shellProc]) as H2 by (by repeat constructor).
  assert (fgProcesses two_twos = [shellProc] ++ alarm :: []) as H3 by reflexivity.
  exact (proj1 (X2_sleep_takes_first_match 2 5 two_twos [shellProc] [] alarm H1 H2) H3).
Defined.

(** X3: when the pid is in a ready list and its key is already taken in the
    wait map, simulateSleep overwrites the entry with the process it takes
    from the ready list: the queue holds, remaining times aside, what it
    held before less one occurrence of the earlier waiter (other
    occurrences of it stay where they are), the wait map keeps its size,
    the ready lists lose one process and [processCount] stays. *)
Theorem X3_sleep_replaces_waiter
    (pid s : Z) (q q' : DynamicQueue) (old : Process) :
  in_ready pid q → waitQueue q !! pid = Some old →
  simulateSleep pid s q = Some q' →
  (∃ p, p ∈ ready q ∧ id p = pid
        ∧ waitQueue q' = <[pid := set_remainingTime s p]> (waitQueue q))
  ∧ members q ≡ₚ forget old :: members q'
  ∧ size (waitQueue q') = size (waitQueue q)
  ∧ length (ready q) = S (length (ready q'))
  ∧ processCount q' = processCount q.
Proof.
  intros Hr Hw Hs. split_and!.
  - by apply (simulateSleep_ready_wait pid s q q').
  - by eapply members_sleep_overwrite.
  - destruct (simulateSleep_moves _ _ _ _ Hr Hs) as (p & _ & _ & ->).
    apply map_size_insert_Some. by eexists.
  - destruct (simulateSleep_moves _ _ _ _ Hr Hs) as (p & _ & Hp & _).
    by rewrite Hp.
  - pose proof (queue_run_processCount [SimulateSleep pid s] q q') as Hn.
    simpl in Hn. rewrite Hs in Hn. specialize (Hn eq_refl). lia.
Qed.

Lemma X3_sleep_replaces_waiter_witness :
  in_ready 2 once_slept
  ∧ waitQueue once_slept !! 2 = Some (set_remainingTime 1 alarm)
  ∧ simulateSleep 2 1 once_slept = Some twice_slept
  ∧ members once_slept
    ≡ₚ forget (set_remainingTime 1 alarm) :: members twice_slept
  ∧ length (ready once_slept) = S (length (ready twice_slept)).
Proof.
  assert (in_ready 2 once_slept) as H1 by compute_done.
  assert (waitQueue once_slept !! 2 = Some (set_remainingTime 1 alarm)) as H2
      by (by vm_compute).
  assert (simulateSleep 2 1 once_slept = Some twice_slept) as H3 by (by vm_compute).
  destruct (X3_sleep_replaces_waiter 2 1 once_slept twice_slept _ H1 H2 H3)
    as (_ & Hm & _ & Hlen & _).
  split_and!; [exact H1|exact H2|exact H3|exact Hm|exact Hlen].
Defined.



(** X5: in every state reached with fresh ids at enqueue, no id occurs twice
    over the two ready lists, every wait entry sits under the id of its
    process, and no id is both in a ready list and in the wait map. *)
Theorem X5_ids_in_one_place (q : DynamicQueue) :
  reachable_fresh q →
  NoDup (id <$> (fgProcesses q ++ bgProcesses q))
  ∧ (∀ k p, waitQueue q !! k = Some p → id p = k)
  ∧ (∀ k, in_ready k q → waitQueue q !! k = None).
Proof. intros H. by apply ids_ok_reachable. Qed.

Lemma X5_ids_in_one_place_witness :
  reachable_fresh two_shell_rounds
  ∧ NoDup (id <$> (fgProcesses two_shell_rounds ++ bgProcesses two_shell_rounds)).
Proof.
  split; [exact two_shell_rounds_reachable|].
  exact (proj1 (X5_ids_in_one_place two_shell_rounds two_shell_rounds_reachable)).
Defined.

(** X6: the processes a queue holds, remaining times aside, are conserved:
    enqueue adds the one process; a sleep that moves a process under a free
    wait key and every tick only move processes between the ready lists and
    the wait map. *)
Theorem X6_members_conserved :
  (∀ q p, members (enqueue p q) ≡ₚ forget p :: members q)
  ∧ (∀ pid s q q',
       in_ready pid q → waitQueue q !! pid = None →
       simulateSleep pid s q = Some q' → members q' ≡ₚ members q)
  ∧ (∀ q, members (wakeUpProcesses q) ≡ₚ members q).
Proof.
  split_and!.
  - apply members_enqueue.
  - apply members_sleep.
  - apply members_wake.
Qed.

Lemma X6_members_conserved_witness :
  members alarm_asleep ≡ₚ members (enqueue alarm main_queue).
Proof.
  destruct X6_members_conserved as (_ & Hsleep & _).
  apply (Hsleep 2 10 (enqueue alarm main_queue) alarm_asleep).
  - compute_done.
  - by vm_compute.
  - by vm_compute.
Defined.

(** X7: only simulateSleep takes a process out of a ready list.  Over any
    trace without a sleep both ready lists only grow at the tail, and a
    sleep leaves sublists: the processes that stay keep their order. *)
Theorem X7_ready_lists_fifo :
  (∀ cs q q',
     slept cs = [] → queue_run cs q = Some q' →
     fgProcesses q `prefix_of` fgProcesses q'
     ∧ bgProcesses q `prefix_of` bgProcesses q')
  ∧ (∀ pid s q q',
       simulateSleep pid s q = Some q' →
       fgProcesses q' `sublist_of` fgProcesses q
       ∧ bgProcesses q' `sublist_of` bgProcesses q).
Proof. split; [apply queue_run_prefix|apply simulateSleep_sublist]. Qed.

Lemma X7_ready_lists_fifo_witness :
  fgProcesses alarm_asleep `prefix_of` fgProcesses (wakeUpProcesses alarm_asleep).
Proof.
  destruct X7_ready_lists_fifo as [Hrun _].
  apply (Hrun [WakeUpProcesses] alarm_asleep (wakeUpProcesses alarm_asleep));
    reflexivity.
Defined.

(** X8: when no waiter has more than n ≥ 1 ticks left, and none has the
    smallest [int] as its remaining time, n ticks empty the wait map, and
    the ready lists then hold every process the queue held. *)
Theorem X8_ticks_drain_wait (n : nat) (q : DynamicQueue) :
  (0 < n)%nat →
  map_Forall (λ _ p, INT_MIN < remainingTime p ≤ Z.of_nat n) (waitQueue q) →
  waitQueue (ticks n q) = ∅
  ∧ forget <$> ready (ticks n q) ≡ₚ members q.
Proof.
  intros Hn Hq. pose proof (ticks_drain n q Hn Hq) as He.
  split; [done|].
  rewrite <-(ticks_members n q). unfold members, wait_values.
  by rewrite He, wait_entries_empty, app_nil_r.
Qed.

Lemma X8_ticks_drain_wait_witness :
  waitQueue (ticks 1 both_asleep) = ∅
  ∧ forget <$> ready (ticks 1 both_asleep) ≡ₚ members both_asleep.
Proof.
  apply (X8_ticks_drain_wait 1 both_asleep).
  - lia.
  - apply map_Forall_to_list. vm_compute. repeat constructor; discriminate.
Defined.

(** X9: a sleep of one second or less, zero and the negative values above
    the smallest [int] included, is undone by the next tick: the process is
    out of the wait map and back in the ready list of its class, its
    remaining time one below the seconds given. *)
Theorem X9_short_sleep_returns (pid s : Z) (q q1 : DynamicQueue) :
  INT_MIN < s ≤ 1 → in_ready pid q → simulateSleep pid s q = Some q1 →
  ∃ p, p ∈ ready q ∧ id p = pid
       ∧ waitQueue (wakeUpProcesses q1) !! pid = None
       ∧ set_remainingTime (s - 1) p ∈ native p (wakeUpProcesses q1).
Proof. apply short_sleep_returns. Qed.

Lemma X9_short_sleep_returns_witness :
  ∃ p, p ∈ ready (enqueue alarm main_queue) ∧ id p = 2
       ∧ waitQueue (wakeUpProcesses zero_slept) !! 2 = None
       ∧ set_remainingTime (0 - 1) p ∈ native p (wakeUpProcesses zero_slept).
Proof.
  apply (X9_short_sleep_returns 2 0 (enqueue alarm main_queue) zero_slept).
  - unfold INT_MIN. lia.
  - compute_done.
  - by vm_compute.
Defined.

(** X10: n rounds of the monitor are n ticks, whatever the interval, and
    print n snapshots: the k-th is the queue after k ticks. *)
Theorem X10_monitor_rounds (interval : Z) (n : nat) (w : world) :
  run (monitorProcess interval n) w
  = Some (mkWorld (ticks n (dq w))
            (cout w +:+ glue ((λ k, snapshot (ticks k (dq w))) <$> seq 1 n))).
Proof. apply run_monitorProcess. Qed.

(** X11: however the calls of the shell and of the monitor take turns on
    the queue that main builds, the run never reaches the undefined case of
    simulateSleep; when the shell is done the queue holds exactly the ids 0
    to 7, [processCount] is 8 and agrees with the three containers, no id is
    in two places, and both ready lists hold their own class only. *)
Theorem X11_every_schedule_is_safe
    (shell_interval monitor_interval : Z) (n : nat) (ms cs : list call) :
  ms `prefix_of` monitorProcess monitor_interval n →
  interleave (shellProcess shell_interval) ms cs →
  ∃ q, queue_run cs main_queue = Some q
       ∧ reachable_fresh q
       ∧ (∀ pid, held pid q ↔ 0 ≤ pid ≤ 7)
       ∧ processCount q = 8
       ∧ counts_ok q ∧ ids_ok q ∧ class_ok q.
Proof.
  intros [rest Hms] Hi.
  assert (Forall monitor_call ms) as Hm.
  { pose proof (monitorProcess_calls monitor_interval n) as Hall.
    rewrite Hms in Hall. by apply Forall_app in Hall as [? _]. }
  destruct (well_used_run cs [0; 1] [0; 1] main_queue) as (q & Hrun & Hq & Hheld).
  - apply main_queue_reachable; compute_done.
  - intros pid. unfold held, in_ready. simpl. rewrite lookup_empty.
    split; [intros [Hin|[x Hx]]; [exact Hin|discriminate Hx]|by left].
  - intros pid. unfold in_ready. simpl. by rewrite !elem_of_cons, elem_of_nil.
  - eapply well_used_interleave; [done..|]. apply shellProcess_well_used.
  - exists q. split_and!; [done..| | | | |].
    + intros pid. rewrite Hheld, (created_interleave _ _ _ Hi Hm).
      rewrite shellProcess_calls. simpl.
      rewrite !elem_of_cons, elem_of_nil. lia.
    + rewrite (queue_run_processCount cs main_queue q Hrun).
      rewrite (created_interleave _ _ _ Hi Hm), shellProcess_calls. done.
    + by apply counts_ok_reachable_fresh.
    + by apply ids_ok_reachable.
    + by eapply class_ok_reachable.
Qed.

Lemma X11_every_schedule_is_safe_witness :
  monitorProcess 10 1 `prefix_of` monitorProcess 10 1
  ∧ interleave (shellProcess 5) (monitorProcess 10 1) monitor_cuts_in
  ∧ ∃ q, queue_run monitor_cuts_in main_queue = Some q
         ∧ (∀ pid, held pid q ↔ 0 ≤ pid ≤ 7)
         ∧ processCount q = 8 ∧ counts_ok q.
Proof.
  assert (monitorProcess 10 1 `prefix_of` monitorProcess 10 1) as H1 by done.
  pose proof monitor_cuts_in_interleave as H2.
  split_and!; [exact H1|exact H2|].
  destruct (X11_every_schedule_is_safe 5 10 1 _ _ H1 H2)
    as (q & Hrun & _ & Hheld & Hn & Hc & _).
  exists q. split_and!; [exact Hrun|exact Hheld|exact Hn|exact Hc].
Defined.

(** X12: toString tells processes apart: two processes with the same label
    have the same id, the same class and the same promoted flag. *)
Theorem X12_toString_injective (p p' : Process) :
  toString p = toString p' →
  id p = id p' ∧ isForeground p = isForeground p' ∧ promoted p = promoted p'.
Proof. apply toString_inj. Qed.

Lemma X12_toString_injective_witness :
  id alarm = id (set_remainingTime 10 alarm).
Proof.
  apply (X12_toString_injective alarm (set_remainingTime 10 alarm)).
  reflexivity.
Defined.

Lemma tokenize_words command : Forall is_word (tokenize command).
Proof. rewrite tokenize_stream. apply stream_tokens_words, c_str_not_nul. Qed.

(** X13: every token that parse takes from the command is a word: it is
    not empty and holds neither white space nor a NUL. *)
Theorem X13_tokens_are_words (command : string) :
  Forall is_word (tokenize command).
Proof. apply tokenize_words. Qed.

Lemma parse_tokens command :
  parse command = Some ((Some <$> tokenize command) ++ [None]).
Proof.
  unfold parse. rewrite mapM_copy; [done|].
  eapply Forall_impl; [apply tokenize_words|].
  by intros t (_ & _ & Ht).
Qed.

(** X14: parse always delivers its array: the copy into a buffer of the
    token's size plus one never fails, the array holds the tokens in order
    and one null pointer, which is its last element. *)
Theorem X14_parse_array (command : string) :
  parse command = Some ((Some <$> tokenize command) ++ [None]).
Proof. apply parse_tokens. Qed.

(** X15: parse drops white space and nothing else: the tokens put together
    are the characters of the command, up to its NUL, that are not white
    space. *)
Theorem X15_tokens_keep_characters (command : string) :
  glue (tokenize command) = keep_chars not_space (c_str command).
Proof. rewrite tokenize_stream. apply stream_tokens_glue. Qed.

(** X16: parse reads back what exec prints: for words, tokenizing the
    words written each with a space behind it gives the words; hence
    printing the tokens of any command and tokenizing again changes
    nothing. *)
Theorem X16_tokenize_round_trip :
  (∀ ts, Forall is_word ts → tokenize (spaced ts) = ts)
  ∧ (∀ command, tokenize (spaced (tokenize command)) = tokenize command).
Proof.
  assert (∀ ts, Forall is_word ts → tokenize (spaced ts) = ts) as Hrt.
  { intros ts Hts. rewrite tokenize_stream, c_str_id by by apply spaced_not_nul.
    by apply stream_tokens_spaced. }
  split; [done|]. intros command. apply Hrt, tokenize_words.
Qed.

Lemma X16_tokenize_round_trip_witness :
  tokenize (spaced ["example"; "command"]) = ["example"; "command"].
Proof.
  apply (proj1 X16_tokenize_round_trip ["example"; "command"]).
  repeat constructor; compute_done.
Defined.

(** X17: parse finds no token exactly when the command, up to its NUL, is
    white space only (the empty command included), and whatever follows a
    NUL in the command is not looked at. *)
Theorem X17_tokenize_edges :
  (∀ command, tokenize command = [] ↔ all_chars Ascii.is_space (c_str command))
  ∧ (∀ s1 s2, tokenize (s1 +:+ String NUL s2) = tokenize s1).
Proof.
  split.
  - intros command. rewrite tokenize_stream. apply stream_tokens_nil.
  - intros s1 s2. by rewrite !tokenize_stream, c_str_nul.
Qed.

Lemma X17_tokenize_edges_witness : tokenize "   " = [].
Proof. apply (proj1 X17_tokenize_edges "   "). reflexivity. Defined.

Lemma c_str_words ts : Forall is_word ts → c_str <$> ts = ts.
Proof.
  induction 1 as [|t ts (_ & _ & Ht) _ IH]; [done|].
  cbn [fmap list_fmap]. by rewrite c_str_id, IH.
Qed.

Lemma exec_terminated ts junk (v : world) :
  exec ((Some <$> ts) ++ None :: junk) v
  = Some (mkWorld (dq v)
            (cout v +:+ "Executing command: " +:+ spaced (c_str <$> ts) +:+ nl)).
Proof.
  unfold exec. rewrite exec_loop_terminated.
  cbn [mbind option_bind]. rewrite !write_eq. cbn [fst snd dq cout].
  unfold render, insertion_string. by rewrite !string_app_assoc.
Qed.

Lemma exec_parse command (v : world) :
  parse command ≫= (λ args, exec args v)
  = Some (mkWorld (dq v)
            (cout v +:+ "Executing command: " +:+ spaced (tokenize command) +:+ nl)).
Proof.
  rewrite parse_tokens. cbn [mbind option_bind].
  by rewrite exec_terminated, c_str_words by apply tokenize_words.
Qed.

(** X18: exec prints the heading, every argument in front of the first null
    pointer with a space behind it, and a line feed, and never looks behind
    that null pointer; on an array without a null pointer it runs off the
    end.  On the array of parse it is always defined and prints the tokens
    of the command; the queue is not touched. *)
Theorem X18_exec_output :
  (∀ ts junk v,
     exec ((Some <$> ts) ++ None :: junk) v
     = Some (mkWorld (dq v)
               (cout v +:+ "Executing command: " +:+ spaced (c_str <$> ts) +:+ nl)))
  ∧ (∀ ts v, exec (Some <$> ts) v = None)
  ∧ (∀ command v,
       parse command ≫= (λ args, exec args v)
       = Some (mkWorld (dq v)
                 (cout v +:+ "Executing command: "
                  +:+ spaced (tokenize command) +:+ nl))).
Proof.
  split_and!.
  - apply exec_terminated.
  - intros ts v. unfold exec. by rewrite exec_loop_unterminated.
  - apply exec_parse.
Qed.

(** What main prints when the shell thread has been joined. *)
Example main_exec_output (v : world) :
  parse "example command" ≫= (λ args, exec args v)
  = Some (mkWorld (dq v) (cout v +:+ "Executing command: example command 
")).
Proof. by rewrite exec_parse. Qed.

(** X19: the loop of parse ends because the stream is used up, not because
    of the bound on its rounds: an extraction that succeeds leaves a
    strictly shorter stream, every bound above the length of the stream
    gives the same vector, and that vector is the first token followed by
    the tokens of the rest. *)
Theorem X19_parse_loop_rounds :
  (∀ ss token rest,
     extract ss = Some (token, rest) →
     (String.length rest < String.length ss)%nat)
  ∧ (∀ fuel ss,
       (String.length ss < fuel)%nat → parse_loop fuel ss [] = stream_tokens ss)
  ∧ (∀ ss,
       stream_tokens ss
       = match extract ss with
         | Some (token, rest) => token :: stream_tokens rest
         | None => []
         end).
Proof.
  split_and!.
  - intros ss token rest He. by apply extract_Some in He as (_ & _ & _ & _ & ?).
  - intros fuel ss Hlt. by apply parse_loop_enough.
  - apply stream_tokens_unfold.
Qed.

Lemma X19_parse_loop_rounds_witness :
  parse_loop 100 "example command" [] = stream_tokens "example command".
Proof.
  apply (proj1 (proj2 X19_parse_loop_rounds) 100%nat "example command").
  simpl. lia.
Defined.

Lemma woken_none (q : DynamicQueue) :
  map_Forall (λ _ p, 1 < remainingTime p) (waitQueue q) → woken q = [].
Proof.
  intros Hq. unfold woken, woken_of.
  assert (filter expired (wait_entries (waitQueue q)).*2 = []) as ->; [|done].
  apply elem_of_nil_inv. intros p [He Hin]%list_elem_of_filter.
  apply list_elem_of_fmap in Hin as ([k p'] & -> & Hin).
  apply elem_of_wait_entries in Hin. specialize (Hq k p' Hin).
  apply int_dec_le_0 in He. simpl in *. lia.
Qed.

(** X20: a tick wakes nobody early: when every waiter has more than one
    tick left, wakeUpProcesses only takes one tick off every waiter; both
    ready lists and both counters stay as they are. *)
Theorem X20_no_early_wake (q : DynamicQueue) :
  map_Forall (λ _ p, 1 < remainingTime p) (waitQueue q) →
  wakeUpProcesses q
  = mkDynamicQueue (fgProcesses q) (bgProcesses q) (tick <$> waitQueue q)
      (processCount q) (bgCount q).
Proof.
  intros Hq. rewrite (dq_eta (wakeUpProcesses q)).
  rewrite wake_fg, wake_bg, wake_wait, wake_processCount, wake_bgCount.
  rewrite (woken_none q Hq), !filter_nil, !app_nil_r. simpl.
  f_equal; [|lia].
  apply map_eq. intros k. rewrite lookup_omap, lookup_fmap.
  destruct (waitQueue q !! k) as [p|] eqn:Hk; [|done]. simpl.
  unfold stay. rewrite decide_False; [done|].
  specialize (Hq k p Hk). unfold expired. rewrite int_dec_le_0. simpl in Hq. lia.
Qed.

Lemma X20_no_early_wake_witness :
  wakeUpProcesses alarm_asleep
  = mkDynamicQueue [shellProc] [monitorProc] (tick <$> waitQueue alarm_asleep) 3 1.
Proof.
  apply (X20_no_early_wake alarm_asleep).
  apply map_Forall_to_list. by vm_compute; repeat constructor.
Defined.
